(** * teal: thermal transport kernels

    A shallow embedding of the residual / Jacobian kernels of the teal
    application (conduction, convection, conservative advection with full
    upwinding, and the thermal fluid flux boundary condition), together with
    the properties its specification states about them.

    Numbers.  The C++ type [Real] is a double.  Part I embeds it as the
    field of rationals in canonical form ([Qc]): arithmetic is exact, equality
    is Leibniz equality and every definition evaluates.  This is the reading
    under which the properties say which expression a kernel returns, which
    branch it takes and which index it touches.  The quotient by zero has no
    value in the field, so the division used by the kernels is a checked
    operation (see [divide]).  An equality that holds only because a rounded
    quotient or product cancels is not a property of the doubles: for the
    residual pass of the upwinding the operations are transcribed once more
    over IEEE 754 binary64 numbers (module [Binary64]), where such an
    equality is put to the test.

    Host framework.  The kernels are called by a finite element framework
    which owns the quadrature loops and the shape functions.  What the kernels
    read from it ([_test], [_phi], [_JxW], [_u], coupled values, ...) is
    embedded as accessors indexed the way the source indexes them. *)

From Stdlib Require Import QArith Qcanon Field Floats.
From stdpp Require Import base numbers list gmap.

Local Open Scope Qc_scope.

(* ================================================================== *)
(** * Part I: the model                                                *)
(* ================================================================== *)

(** ** Reals and three-component vectors *)

Abbreviation Real := Qc.

(** [RealVectorValue]: three components, read with [v(k)], and the
    contraction [a * b] of two vectors. *)
Record RealVectorValue := mkVec { vx : Real; vy : Real; vz : Real }.

Definition comp (v : RealVectorValue) (k : nat) : Real :=
  match k with
  | 0%nat => vx v
  | 1%nat => vy v
  | _ => vz v
  end.

Definition dot (a b : RealVectorValue) : Real :=
  vx a * vx b + vy a * vy b + vz a * vz b.

Definition scale (c : Real) (v : RealVectorValue) : RealVectorValue :=
  mkVec (c * vx v) (c * vy v) (c * vz v).

(** ** What the framework hands to a kernel

    Shape function tables are indexed [_test[_i][_qp]]; field values are
    indexed [_u[_qp]]; [_u_nodal[n]] is the value of the unknown at local
    node [n]. *)
Record Assembly := mkAssembly {
  test_size : nat;                            (* _test.size() *)
  phi_size : nat;                             (* _phi.size() *)
  n_points : nat;                             (* _qrule->n_points() *)
  _test : nat -> nat -> Real;
  _grad_test : nat -> nat -> RealVectorValue;
  _phi : nat -> nat -> Real;
  _grad_phi : nat -> nat -> RealVectorValue;
  _u : nat -> Real;
  _grad_u : nat -> RealVectorValue;
  _u_nodal : nat -> Real;
  _normals : nat -> RealVectorValue;
  _JxW : nat -> Real;
  _coord : nat -> Real
}.

(** ** HeatConduction *)
Module HeatConduction.

Record params := mkParams {
  _conductivity : nat -> Real;
  _conductivity_var : nat;
  _volfrac : nat -> Real;
  _volfrac_var : nat
}.

Definition coupled_vars (k : params) : list nat :=
  [_conductivity_var k; _volfrac_var k].

(* scalar * scalar * vector * vector, associated to the left *)
Definition computeQpResidual (k : params) (a : Assembly) (i qp : nat) : Real :=
  dot (scale (_volfrac k qp * _conductivity k qp) (_grad_test a i qp)) (_grad_u a qp).

Definition computeQpJacobian (k : params) (a : Assembly) (i j qp : nat) : Real :=
  dot (scale (_volfrac k qp * _conductivity k qp) (_grad_test a i qp)) (_grad_phi a j qp).

Definition computeQpOffDiagJacobian
    (k : params) (a : Assembly) (i j qp : nat) (jvar : nat) : Real :=
  if decide (jvar = _conductivity_var k) then
    dot (scale (_volfrac k qp * _phi a j qp) (_grad_test a i qp)) (_grad_u a qp)
  else if decide (jvar = _volfrac_var k) then
    dot (scale (_phi a j qp * _conductivity k qp) (_grad_test a i qp)) (_grad_u a qp)
  else 0.

End HeatConduction.

(** ** HeatConvection *)
Module HeatConvection.

Record params := mkParams {
  _hs : nat -> Real;
  _hs_var : nat;
  _other_temp : nat -> Real;
  _other_temp_var : nat;
  _volfrac : nat -> Real;
  _volfrac_var : nat;
  _specarea : nat -> Real;
  _specarea_var : nat
}.

Definition coupled_vars (k : params) : list nat :=
  [_hs_var k; _other_temp_var k; _volfrac_var k; _specarea_var k].

Definition computeQpResidual (k : params) (a : Assembly) (i qp : nat) : Real :=
  _test a i qp * _hs k qp * _specarea k qp * _volfrac k qp
    * (_u a qp - _other_temp k qp).

Definition computeQpJacobian (k : params) (a : Assembly) (i j qp : nat) : Real :=
  _test a i qp * _hs k qp * _specarea k qp * _volfrac k qp * _phi a j qp.

Definition computeQpOffDiagJacobian
    (k : params) (a : Assembly) (i j qp : nat) (jvar : nat) : Real :=
  if decide (jvar = _other_temp_var k) then
    - _test a i qp * _hs k qp * _specarea k qp * _volfrac k qp * _phi a j qp
  else if decide (jvar = _hs_var k) then
    _test a i qp * _phi a j qp * _specarea k qp * _volfrac k qp
      * (_u a qp - _other_temp k qp)
  else if decide (jvar = _volfrac_var k) then
    _test a i qp * _hs k qp * _specarea k qp * _phi a j qp
      * (_u a qp - _other_temp k qp)
  else if decide (jvar = _specarea_var k) then
    _test a i qp * _hs k qp * _phi a j qp * _volfrac k qp
      * (_u a qp - _other_temp k qp)
  else 0.

End HeatConvection.

(** ** ThermalFluidFluxBC *)
Module ThermalFluidFluxBC.

Record params := mkParams {
  _density : nat -> Real;
  _density_var : nat;
  _heat_cap : nat -> Real;
  _heat_cap_var : nat;
  _volfrac : nat -> Real;
  _volfrac_var : nat;
  _ux : nat -> Real;
  _ux_var : nat;
  _uy : nat -> Real;
  _uy_var : nat;
  _uz : nat -> Real;
  _uz_var : nat;
  _outside_temp : nat -> Real;
  _outside_temp_var : nat
}.

Definition coupled_vars (k : params) : list nat :=
  [_density_var k; _heat_cap_var k; _volfrac_var k;
   _ux_var k; _uy_var k; _uz_var k; _outside_temp_var k].

(** The identifier of the velocity component [c] (0, 1, 2 for x, y, z). *)
Definition vel_var (k : params) (c : nat) : nat :=
  match c with
  | 0%nat => _ux_var k
  | 1%nat => _uy_var k
  | _ => _uz_var k
  end.

(** The member [_vec] is overwritten from the three velocity components at
    the start of every entry point, so it is a value of the quadrature
    point. *)
Definition _vec (k : params) (qp : nat) : RealVectorValue :=
  mkVec (_ux k qp) (_uy k qp) (_uz k qp).

(** [(_vec) * _normals[_qp]] *)
Definition flux_dir (k : params) (a : Assembly) (qp : nat) : Real :=
  dot (_vec k qp) (_normals a qp).

(** The two arms of the branch in [computeQpResidual]. *)
Definition residual_output (k : params) (a : Assembly) (i qp : nat) : Real :=
  0 + _test a i qp * flux_dir k a qp * _u a qp
        * _density k qp * _heat_cap k qp * _volfrac k qp.

Definition residual_input (k : params) (a : Assembly) (i qp : nat) : Real :=
  0 + _test a i qp * flux_dir k a qp * _outside_temp k qp
        * _density k qp * _heat_cap k qp * _volfrac k qp.

Definition computeQpResidual (k : params) (a : Assembly) (i qp : nat) : Real :=
  if decide (0 < flux_dir k a qp)
  then residual_output k a i qp
  else residual_input k a i qp.

Definition computeQpJacobian (k : params) (a : Assembly) (i j qp : nat) : Real :=
  if decide (0 < flux_dir k a qp)
  then 0 + _test a i qp * flux_dir k a qp * _phi a j qp
             * _density k qp * _heat_cap k qp * _volfrac k qp
  else 0 + 0.

(** The body shared by the three velocity arms of
    [computeQpOffDiagJacobian]; [c] is the component of the normal. *)
Definition offdiag_arm (k : params) (a : Assembly) (i j qp : nat) (c : nat) : Real :=
  if decide (0 < flux_dir k a qp)
  then 0 + _test a i qp * _u a qp * (_phi a j qp * comp (_normals a qp) c)
             * _density k qp * _heat_cap k qp * _volfrac k qp
  else 0 + _test a i qp * _outside_temp k qp * (_phi a j qp * comp (_normals a qp) c)
             * _density k qp * _heat_cap k qp * _volfrac k qp.

Definition computeQpOffDiagJacobian
    (k : params) (a : Assembly) (i j qp : nat) (jvar : nat) : Real :=
  if decide (jvar = _ux_var k) then offdiag_arm k a i j qp 0
  else if decide (jvar = _uy_var k) then offdiag_arm k a i j qp 1
  else if decide (jvar = _uz_var k) then offdiag_arm k a i j qp 2
  else 0.

End ThermalFluidFluxBC.

(** ** Checked operations

    Library containers check their indices (assertions in [DenseVector],
    [DenseMatrix]; undefined behaviour of [std::vector] otherwise): an index
    out of range is the fault [OutOfRange].  A quotient by zero is the fault
    [DivideByZero]. *)
Inductive fault := OutOfRange | DivideByZero.

Inductive result (A : Type) :=
  | Ok (a : A)
  | Fault (f : fault).
Arguments Ok {A} a.
Arguments Fault {A} f.

Definition bind {A B} (r : result A) (k : A -> result B) : result B :=
  match r with
  | Ok a => k a
  | Fault f => Fault f
  end.

Notation "x <- r ;; k" := (bind r (fun x => k))
  (at level 100, r at next level, right associativity).

(** [for (n = lo; n < lo + count; ++n) body] over a threaded state. *)
Fixpoint for_range {St : Type} (lo count : nat)
    (body : nat -> St -> result St) (s : St) : result St :=
  match count with
  | O => Ok s
  | S count' => s' <- body lo s ;; for_range (S lo) count' body s'
  end.

Definition for_loop {St : Type} (n : nat) (body : nat -> St -> result St) (s : St)
  : result St := for_range 0 n body s.

(** [std::vector] / [DenseVector]: checked read and write. *)
Definition vec_get {A} (v : list A) (i : nat) : result A :=
  match v !! i with
  | Some x => Ok x
  | None => Fault OutOfRange
  end.

Definition vec_set {A} (v : list A) (i : nat) (x : A) : result (list A) :=
  if decide (i < length v)%nat then Ok (<[i := x]> v) else Fault OutOfRange.

(** [DenseMatrix]: [m] rows, [n] columns, values stored row by row;
    entry [(i, j)] is [_val[i * n + j]], with [i < m] and [j < n] asserted. *)
Record DenseMatrix := mkMatrix {
  mat_m : nat;
  mat_n : nat;
  mat_val : list Real
}.

Definition mat_get (K : DenseMatrix) (i j : nat) : result Real :=
  if decide (i < mat_m K ∧ j < mat_n K)%nat
  then vec_get (mat_val K) (i * mat_n K + j)
  else Fault OutOfRange.

Definition mat_set (K : DenseMatrix) (i j : nat) (x : Real) : result DenseMatrix :=
  if decide (i < mat_m K ∧ j < mat_n K)%nat
  then v <- vec_set (mat_val K) (i * mat_n K + j) x ;;
       Ok (mkMatrix (mat_m K) (mat_n K) v)
  else Fault OutOfRange.

(** [resize(m, n)] followed by [zero()] *)
Definition mat_zero (m n : nat) : DenseMatrix :=
  mkMatrix m n (replicate (m * n) 0).

(** [a += b] on vectors and matrices of one size *)
Definition vec_add (a b : list Real) : list Real := zip_with Qcplus a b.

Definition mat_add (A B : DenseMatrix) : DenseMatrix :=
  mkMatrix (mat_m A) (mat_n A) (vec_add (mat_val A) (mat_val B)).

(** [NumericVector::add_vector(v, dof_indices)]: [v(i)] is added at global
    index [dof_indices[i]].  The global vector is sparse in the model; an
    index never written reads as zero. *)
Definition add_vector (v : list Real) (dofs : list nat) (sol : gmap nat Real)
  : gmap nat Real :=
  foldl (fun acc '(d, x) => <[d := default 0 (acc !! d) + x]> acc) sol (zip dofs v).

(** The vector [f 0, ..., f (n-1)] and the [m] by [n] matrix of entries
    [e i j]: the closed forms of what the loops leave in the containers. *)
Definition tabulate {A} (n : nat) (f : nat -> A) : list A := f <$> seq 0 n.

Definition mat_tabulate (m n : nat) (e : nat -> nat -> Real) : DenseMatrix :=
  mkMatrix m n (tabulate (m * n) (fun p => e (p / n)%nat (p mod n)%nat)).

(** A run [r] ends in the state [x], or stops on a fault that [G] allows. *)
Definition steps_to {A} (G : fault -> Prop) (r : result A) (x : A) : Prop :=
  match r with
  | Ok y => y = x
  | Fault f => G f
  end.

(** Finite sums over the local nodes [0 .. n-1] that satisfy [p]. *)
Fixpoint sum_where (p : nat -> bool) (f : nat -> Real) (n : nat) : Real :=
  match n with
  | O => 0
  | S n' => if p n' then sum_where p f n' + f n' else sum_where p f n'
  end.

Fixpoint count_where (p : nat -> bool) (n : nat) : nat :=
  match n with
  | O => 0
  | S n' => if p n' then S (count_where p n') else count_where p n'
  end.

(** ** HeatAdvectionConservative *)
Module HeatAdvectionConservative.

Inductive JacRes := CALCULATE_RESIDUAL | CALCULATE_JACOBIAN.

Inductive UpwindingType := none | full.

Definition is_jacobian (res_or_jac : JacRes) : bool :=
  match res_or_jac with
  | CALCULATE_JACOBIAN => true
  | CALCULATE_RESIDUAL => false
  end.

(** Coupled values and their identifiers, the upwinding option, and the
    save-in lists of the kernel: each save-in variable is given by the
    global indices of its degrees of freedom on the element. *)
Record params := mkParams {
  _density : nat -> Real;
  _density_var : nat;
  _heat_cap : nat -> Real;
  _heat_cap_var : nat;
  _volfrac : nat -> Real;
  _volfrac_var : nat;
  _ux : nat -> Real;
  _ux_var : nat;
  _uy : nat -> Real;
  _uy_var : nat;
  _uz : nat -> Real;
  _uz_var : nat;
  _upwinding : UpwindingType;
  _has_save_in : bool;
  _save_in : list (list nat);
  _has_diag_save_in : bool;
  _diag_save_in : list (list nat)
}.

Definition coupled_vars (k : params) : list nat :=
  [_density_var k; _heat_cap_var k; _volfrac_var k;
   _ux_var k; _uy_var k; _uz_var k].

(** The mutable store [fullUpwind] works on: the scratch members of the
    kernel ([_local_re], [_local_ke], [_upwind_node], [_dtotal_mass_out]),
    the two local accumulators of the function, the tagged residual and
    matrix blocks of the assembly, and the solution vector of the save-in
    variables.  [divisions] is a ghost counter of the quotients taken. *)
Record state := mkState {
  _local_re : list Real;
  _local_ke : DenseMatrix;
  _upwind_node : list bool;
  _dtotal_mass_out : list Real;
  total_mass_out : Real;
  total_in : Real;
  re_blocks : list (list Real);
  ke_blocks : list DenseMatrix;
  solution : gmap nat Real;
  divisions : nat
}.

(** Assignments to one member of the store. *)
Definition set_local_re (v : list Real) (s : state) : state :=
  match s with
  | mkState re ke up dm tmo tin rb kb sol dv =>
      mkState v ke up dm tmo tin rb kb sol dv
  end.

Definition set_local_ke (K : DenseMatrix) (s : state) : state :=
  match s with
  | mkState re ke up dm tmo tin rb kb sol dv =>
      mkState re K up dm tmo tin rb kb sol dv
  end.

Definition set_upwind_node (v : list bool) (s : state) : state :=
  match s with
  | mkState re ke up dm tmo tin rb kb sol dv =>
      mkState re ke v dm tmo tin rb kb sol dv
  end.

Definition set_dtotal_mass_out (v : list Real) (s : state) : state :=
  match s with
  | mkState re ke up dm tmo tin rb kb sol dv =>
      mkState re ke up v tmo tin rb kb sol dv
  end.

Definition set_total_mass_out (x : Real) (s : state) : state :=
  match s with
  | mkState re ke up dm tmo tin rb kb sol dv =>
      mkState re ke up dm x tin rb kb sol dv
  end.

Definition set_total_in (x : Real) (s : state) : state :=
  match s with
  | mkState re ke up dm tmo tin rb kb sol dv =>
      mkState re ke up dm tmo x rb kb sol dv
  end.

Definition set_re_blocks (b : list (list Real)) (s : state) : state :=
  match s with
  | mkState re ke up dm tmo tin rb kb sol dv =>
      mkState re ke up dm tmo tin b kb sol dv
  end.

Definition set_ke_blocks (b : list DenseMatrix) (s : state) : state :=
  match s with
  | mkState re ke up dm tmo tin rb kb sol dv =>
      mkState re ke up dm tmo tin rb b sol dv
  end.

Definition set_solution (g : gmap nat Real) (s : state) : state :=
  match s with
  | mkState re ke up dm tmo tin rb kb sol dv =>
      mkState re ke up dm tmo tin rb kb g dv
  end.

Definition set_divisions (d : nat) (s : state) : state :=
  match s with
  | mkState re ke up dm tmo tin rb kb sol dv =>
      mkState re ke up dm tmo tin rb kb sol d
  end.

(** [x / y], counted; the quotient by zero is a fault.  The quotient is the
    exact one of the field, where the source rounds (see [Binary64]). *)
Definition divide (x y : Real) (s : state) : result (Real * state) :=
  if decide (y = 0) then Fault DivideByZero
  else Ok (x / y, set_divisions (S (divisions s)) s).

Section Kernel.

Variable k : params.
Variable a : Assembly.

Definition _vec (qp : nat) : RealVectorValue :=
  mkVec (_ux k qp) (_uy k qp) (_uz k qp).

Definition negSpeedQp (i qp : nat) : Real :=
  - (dot (_grad_test a i qp) (_vec qp))
    * _density k qp * _heat_cap k qp * _volfrac k qp.

Definition computeQpResidual (i qp : nat) : Real :=
  negSpeedQp i qp * _u a qp.

Definition computeQpJacobian (i j qp : nat) : Real :=
  negSpeedQp i qp * _phi a j qp.

Definition computeQpOffDiagJacobian (i j qp : nat) (jvar : nat) : Real :=
  if decide (jvar = _ux_var k) then
    - _u a qp * (_phi a j qp * comp (_grad_test a i qp) 0)
      * _density k qp * _heat_cap k qp * _volfrac k qp
  else if decide (jvar = _uy_var k) then
    - _u a qp * (_phi a j qp * comp (_grad_test a i qp) 1)
      * _density k qp * _heat_cap k qp * _volfrac k qp
  else if decide (jvar = _uz_var k) then
    - _u a qp * (_phi a j qp * comp (_grad_test a i qp) 2)
      * _density k qp * _heat_cap k qp * _volfrac k qp
  else if decide (jvar = _density_var k) then
    - _u a qp * dot (_grad_test a i qp) (_vec qp)
      * _phi a j qp * _heat_cap k qp * _volfrac k qp
  else if decide (jvar = _heat_cap_var k) then
    - _u a qp * dot (_grad_test a i qp) (_vec qp)
      * _density k qp * _phi a j qp * _volfrac k qp
  else if decide (jvar = _volfrac_var k) then
    - _u a qp * dot (_grad_test a i qp) (_vec qp)
      * _density k qp * _heat_cap k qp * _phi a j qp
  else 0.

(** *** The tagging interface of the framework

    [prepareVectorTag] sizes [_local_re] to the residual block of the
    variable (one entry per test function) and zeroes it;
    [prepareMatrixTag] sizes [_local_ke] to the matrix block (test
    functions by trial functions) and zeroes it.  The accumulate calls add
    the local vector or matrix to every tagged block; the blocks have the
    size the local object was given from them. *)
Definition prepareVectorTag (s : state) : state :=
  set_local_re (replicate (test_size a) 0) s.

Definition prepareMatrixTag (s : state) : state :=
  set_local_ke (mat_zero (test_size a) (phi_size a)) s.

Definition accumulateTaggedLocalResidual (s : state) : state :=
  set_re_blocks (map (fun re => vec_add re (_local_re s)) (re_blocks s)) s.

Definition accumulateTaggedLocalMatrix (s : state) : state :=
  set_ke_blocks (map (fun ke => mat_add ke (_local_ke s)) (ke_blocks s)) s.

(** *** fullUpwind, loop by loop *)

(** [_local_re(_i) += _JxW[_qp] * _coord[_qp] * negSpeedQp()] *)
Definition outflux_qp (i qp : nat) (s : state) : result state :=
  r <- vec_get (_local_re s) i ;;
  re <- vec_set (_local_re s) i (r + _JxW a qp * _coord a qp * negSpeedQp i qp) ;;
  Ok (set_local_re re s).

(** Body of the first loop: the outflux of node [i], then its class. *)
Definition outflux_node (i : nat) (s : state) : result state :=
  s <- for_loop (n_points a) (outflux_qp i) s ;;
  r <- vec_get (_local_re s) i ;;
  up <- vec_set (_upwind_node s) i (bool_decide (0 ≤ r)) ;;
  Ok (set_upwind_node up s).

(** Body of the second loop. *)
Definition mass_node (res_or_jac : JacRes) (n : nat) (s : state) : result state :=
  up <- vec_get (_upwind_node s) n ;;
  if (up : bool) then
    s <- (if is_jacobian res_or_jac then
            s <- (if decide (test_size a = phi_size a) then
                    knn <- mat_get (_local_ke s) n n ;;
                    r <- vec_get (_local_re s) n ;;
                    ke <- mat_set (_local_ke s) n n (knn + r) ;;
                    Ok (set_local_ke ke s)
                  else Ok s) ;;
            d <- vec_get (_dtotal_mass_out s) n ;;
            knn <- mat_get (_local_ke s) n n ;;
            dm <- vec_set (_dtotal_mass_out s) n (d + knn) ;;
            Ok (set_dtotal_mass_out dm s)
          else Ok s) ;;
    r <- vec_get (_local_re s) n ;;
    re <- vec_set (_local_re s) n (r * _u_nodal a n) ;;
    let s := set_local_re re s in
    r <- vec_get (_local_re s) n ;;
    Ok (set_total_mass_out (total_mass_out s + r) s)
  else
    r <- vec_get (_local_re s) n ;;
    Ok (set_total_in (total_in s - r) s).

(** [_local_ke(n, _j) += _local_re(n) * _dtotal_mass_out[_j] / total_in] *)
Definition redistribute_col (n j : nat) (s : state) : result state :=
  knj <- mat_get (_local_ke s) n j ;;
  r <- vec_get (_local_re s) n ;;
  d <- vec_get (_dtotal_mass_out s) j ;;
  qs <- divide (r * d) (total_in s) s ;;
  ke <- mat_set (_local_ke (snd qs)) n j (knj + fst qs) ;;
  Ok (set_local_ke ke (snd qs)).

(** Body of the third loop. *)
Definition redistribute_node (res_or_jac : JacRes) (n : nat) (s : state)
  : result state :=
  up <- vec_get (_upwind_node s) n ;;
  if negb up then
    s <- (if is_jacobian res_or_jac
          then for_loop (phi_size a) (redistribute_col n) s
          else Ok s) ;;
    r <- vec_get (_local_re s) n ;;
    qs <- divide (total_mass_out s) (total_in s) s ;;
    re <- vec_set (_local_re (snd qs)) n (r * fst qs) ;;
    Ok (set_local_re re (snd qs))
  else Ok s.

(** The save-in write of the residual pass. *)
Definition save_in_residual (s : state) : state :=
  set_solution
    (foldl (fun sol dofs => add_vector (_local_re s) dofs sol)
           (solution s) (_save_in k)) s.

(** [diag(i) = _local_ke(i, i)] for every row [i]. *)
Definition diag_entry (K : DenseMatrix) (i : nat) (d : list Real)
  : result (list Real) :=
  x <- mat_get K i i ;; vec_set d i x.

Definition save_in_diagonal (s : state) : result state :=
  let rows := mat_m (_local_ke s) in
  diag <- for_loop rows (diag_entry (_local_ke s)) (replicate rows 0) ;;
  Ok (set_solution
        (foldl (fun sol dofs => add_vector diag dofs sol)
               (solution s) (_diag_save_in k)) s).

(** The store when the first loop starts: the tags are prepared and
    [_upwind_node] is resized to the number of nodes. *)
Definition prepared (res_or_jac : JacRes) (s : state) : state :=
  let num_nodes := test_size a in
  let s := prepareVectorTag s in
  let s := if is_jacobian res_or_jac then prepareMatrixTag s else s in
  set_upwind_node (resize num_nodes false (_upwind_node s)) s.

Definition fullUpwind (res_or_jac : JacRes) (s : state) : result state :=
  let num_nodes := test_size a in
  let s := prepared res_or_jac s in
  s <- for_loop num_nodes outflux_node s ;;
  let s := set_total_in 0 (set_total_mass_out 0 s) in
  let s := if is_jacobian res_or_jac
           then set_dtotal_mass_out (replicate num_nodes 0) s else s in
  s <- for_loop num_nodes (mass_node res_or_jac) s ;;
  s <- for_loop num_nodes (redistribute_node res_or_jac) s ;;
  s <- (match res_or_jac with
        | CALCULATE_RESIDUAL =>
            let s := accumulateTaggedLocalResidual s in
            Ok (if _has_save_in k then save_in_residual s else s)
        | CALCULATE_JACOBIAN => Ok s
        end) ;;
  match res_or_jac with
  | CALCULATE_JACOBIAN =>
      let s := accumulateTaggedLocalMatrix s in
      if _has_diag_save_in k then save_in_diagonal s else Ok s
  | CALCULATE_RESIDUAL => Ok s
  end.

(** [computeResidual] and [computeJacobian]: without upwinding the generic
    quadrature loops of the framework's [Kernel] run (they are not part of
    this repository and are taken as given); with full upwinding,
    [fullUpwind]. *)
Variable Kernel_computeResidual : state -> result state.
Variable Kernel_computeJacobian : state -> result state.

Definition computeResidual (s : state) : result state :=
  match _upwinding k with
  | none => Kernel_computeResidual s
  | full => fullUpwind CALCULATE_RESIDUAL s
  end.

Definition computeJacobian (s : state) : result state :=
  match _upwinding k with
  | none => Kernel_computeJacobian s
  | full => fullUpwind CALCULATE_JACOBIAN s
  end.

(** *** What the loops compute, in closed form *)

(** [_local_re(i)] after [q] quadrature points of the first loop. *)
Fixpoint outflux_upto (i q : nat) : Real :=
  match q with
  | O => 0
  | S q' => outflux_upto i q' + _JxW a q' * _coord a q' * negSpeedQp i q'
  end.

(** The raw nodal outflux of node [i]. *)
Definition rawFlux (i : nat) : Real := outflux_upto i (n_points a).

(** The class of node [i]: [true] for an outflow (upwind) node. *)
Definition upwind (i : nat) : bool := bool_decide (0 ≤ rawFlux i).

Definition downwind (i : nat) : bool := negb (upwind i).

(** The local accumulators after [n] nodes of the second loop. *)
Fixpoint mass_out_upto (n : nat) : Real :=
  match n with
  | O => 0
  | S n' => if upwind n'
            then mass_out_upto n' + rawFlux n' * _u_nodal a n'
            else mass_out_upto n'
  end.

Fixpoint in_upto (n : nat) : Real :=
  match n with
  | O => 0
  | S n' => if upwind n' then in_upto n' else in_upto n' - rawFlux n'
  end.

Definition totalMassOut : Real := mass_out_upto (test_size a).
Definition totalIn : Real := in_upto (test_size a).

(** [_dtotal_mass_out[i]]: the diagonal entry read at an outflow node, which
    holds the outflux only when the test and trial counts agree. *)
Definition dMassOut (i : nat) : Real :=
  if upwind i
  then (if decide (test_size a = phi_size a) then rawFlux i else 0)
  else 0.

(** The residual of node [i] and the Jacobian entry [(i, j)] that the third
    loop leaves in [_local_re] and [_local_ke]. *)
Definition residual_value (i : nat) : Real :=
  if upwind i
  then rawFlux i * _u_nodal a i
  else rawFlux i * (totalMassOut / totalIn).

Definition jacobian_entry (i j : nat) : Real :=
  if upwind i
  then (if decide (j = i) then dMassOut i else 0)
  else rawFlux i * dMassOut j / totalIn.

(** The store after [n] nodes of the first loop and [q] quadrature points
    of node [n]. *)
Definition after_outflux (res_or_jac : JacRes) (s : state) (n q : nat) : state :=
  set_upwind_node
    (tabulate (test_size a)
       (fun i => if decide (i < n)%nat then upwind i
                 else default false (_upwind_node s !! i)))
    (set_local_re
       (tabulate (test_size a)
          (fun i => if decide (i < n)%nat then rawFlux i
                    else if decide (i = n) then outflux_upto n q else 0))
       (prepared res_or_jac s)).

(** The store after [n] nodes of the second loop. *)
Definition after_mass (res_or_jac : JacRes) (s : state) (n : nat) : state :=
  mkState
    (tabulate (test_size a)
       (fun i => if decide (i < n)%nat
                 then (if upwind i then rawFlux i * _u_nodal a i else rawFlux i)
                 else rawFlux i))
    (if is_jacobian res_or_jac
     then mat_tabulate (test_size a) (phi_size a)
            (fun i j => if decide (i < n ∧ j = i)%nat then dMassOut i else 0)
     else _local_ke s)
    (tabulate (test_size a) upwind)
    (if is_jacobian res_or_jac
     then tabulate (test_size a)
            (fun i => if decide (i < n)%nat then dMassOut i else 0)
     else _dtotal_mass_out s)
    (mass_out_upto n) (in_upto n)
    (re_blocks s) (ke_blocks s) (solution s) (divisions s).

(** The store after [n] nodes of the third loop and [c] columns of the
    Jacobian row of node [n]. *)
Definition after_redistribute (res_or_jac : JacRes) (s : state) (n c : nat)
  : state :=
  mkState
    (tabulate (test_size a)
       (fun i => if decide (i < n)%nat then residual_value i
                 else if upwind i then rawFlux i * _u_nodal a i else rawFlux i))
    (if is_jacobian res_or_jac
     then mat_tabulate (test_size a) (phi_size a)
            (fun i j => if decide (i < n ∨ (i = n ∧ j < c))%nat
                        then jacobian_entry i j
                        else if decide (j = i) then dMassOut i else 0)
     else _local_ke s)
    (tabulate (test_size a) upwind)
    (if is_jacobian res_or_jac
     then tabulate (test_size a) dMassOut
     else _dtotal_mass_out s)
    totalMassOut totalIn
    (re_blocks s) (ke_blocks s) (solution s)
    (divisions s
     + count_where downwind n * (if is_jacobian res_or_jac then S (phi_size a) else 1)
     + c).

(** The store [fullUpwind] ends in. *)
Definition finished (res_or_jac : JacRes) (s : state) : state :=
  let s3 := after_redistribute res_or_jac s (test_size a) 0 in
  match res_or_jac with
  | CALCULATE_RESIDUAL =>
      let s4 := accumulateTaggedLocalResidual s3 in
      if _has_save_in k then save_in_residual s4 else s4
  | CALCULATE_JACOBIAN =>
      let s4 := accumulateTaggedLocalMatrix s3 in
      if _has_diag_save_in k
      then set_solution
             (foldl (fun sol dofs =>
                       add_vector (tabulate (test_size a) (fun i => jacobian_entry i i))
                                  dofs sol)
                    (solution s4) (_diag_save_in k)) s4
      else s4
  end.

(** The indices a Jacobian pass uses stay in range: an outflow node [n]
    reads [_local_ke(n, n)], an inflow node reads [_dtotal_mass_out[j]] for
    every trial index [j], and the diagonal save-in reads [_local_ke(i, i)]
    for every row [i]. *)
Definition indices_in_range : Prop :=
  (∀ n, (n < test_size a)%nat → upwind n = true → (n < phi_size a)%nat) ∧
  (∀ n, (n < test_size a)%nat → upwind n = false →
        (phi_size a ≤ test_size a)%nat) ∧
  (_has_diag_save_in k = true → (test_size a ≤ phi_size a)%nat).

(** The faults a pass can stop on: none in a residual pass; in a Jacobian
    pass an index out of range, and only when the test and trial counts
    differ and some index above leaves its range. *)
Definition may_fault (res_or_jac : JacRes) (f : fault) : Prop :=
  match res_or_jac with
  | CALCULATE_RESIDUAL => False
  | CALCULATE_JACOBIAN =>
      f = OutOfRange ∧ test_size a ≠ phi_size a ∧ ¬ indices_in_range
  end.

End Kernel.

End HeatAdvectionConservative.


(** ** Concrete inputs

    A boundary quadrature point with unit normal along x, and a two-node
    line element with linear shape functions and two quadrature points. *)
Module Examples.

Definition half : Real := Q2Qc (1 # 2).

Definition line_grad (i : nat) : RealVectorValue :=
  match i with
  | O => mkVec (- 1) 0 0
  | _ => mkVec 1 0 0
  end.

Definition line (ntest nphi : nat) : Assembly :=
  mkAssembly ntest nphi 2
    (fun _ _ => half) (fun i _ => line_grad i)
    (fun _ _ => half) (fun j _ => line_grad j)
    (fun _ => Q2Qc 400) (fun _ => mkVec 1 0 0)
    (fun n => match n with O => Q2Qc 3 | _ => Q2Qc 5 end)
    (fun _ => mkVec 1 0 0)
    (fun _ => half) (fun _ => 1).

(** Flux boundary condition: the velocity along x is [v], the velocity
    along y is one; the identifiers are those of [ids]. *)
Definition flux_bc (v : Real) (idx idy idz : nat) : ThermalFluidFluxBC.params :=
  ThermalFluidFluxBC.mkParams
    (fun _ => Q2Qc 2) 10 (fun _ => Q2Qc 3) 11 (fun _ => 1) 12
    (fun _ => v) idx (fun _ => 1) idy (fun _ => 0) idz
    (fun _ => Q2Qc 300) 16.

Definition convection : HeatConvection.params :=
  HeatConvection.mkParams
    (fun _ => Q2Qc 5) 20 (fun _ => Q2Qc 300) 21
    (fun _ => half) 22 (fun _ => Q2Qc 3) 23.

Definition conduction : HeatConduction.params :=
  HeatConduction.mkParams (fun _ => Q2Qc 2) 30 (fun _ => 1) 31.

(** Advection with unit density, heat capacity and volume fraction and the
    velocity [v] along x; [save] switches both save-in writes. *)
Definition advection (v : Real) (save : bool) : HeatAdvectionConservative.params :=
  HeatAdvectionConservative.mkParams
    (fun _ => 1) 10 (fun _ => 1) 11 (fun _ => 1) 12
    (fun _ => v) 13 (fun _ => 0) 14 (fun _ => 0) 15
    HeatAdvectionConservative.full
    save [[0; 1]%nat] save [[0; 1]%nat].

Definition fresh : HeatAdvectionConservative.state :=
  HeatAdvectionConservative.mkState
    [] (mkMatrix 0 0 []) [] [] 0 0 [[0; 0]] [mat_zero 2 2] ∅ 0.

End Examples.

(** ** HeatSource *)
Module HeatSource.

Record params := mkParams {
  _coupled_source : nat -> Real;
  _coupled_source_var : nat
}.

Definition computeQpResidual (k : params) (a : Assembly) (i qp : nat) : Real :=
  - _test a i qp * _coupled_source k qp.

Definition computeQpJacobian (k : params) (a : Assembly) (i j qp : nat) : Real := 0.

Definition computeQpOffDiagJacobian
    (k : params) (a : Assembly) (i j qp : nat) (jvar : nat) : Real :=
  if decide (jvar = _coupled_source_var k) then - _test a i qp * _phi a j qp
  else 0.

End HeatSource.

(** ** HeatAccumulation

    The kernel derives from the framework's [CoefTimeDerivative]: its residual
    and its Jacobian set the member [_coef] and hand over to the base class,
    which is not part of this repository and is taken as given, as a function
    of the coefficient it reads.  [_u_dot] is the time derivative of the
    unknown at the quadrature points, a member the kernel inherits and reads
    in its off-diagonal Jacobian. *)
Module HeatAccumulation.

Record params := mkParams {
  _density : nat -> Real;
  _density_var : nat;
  _heat_cap : nat -> Real;
  _heat_cap_var : nat;
  _volfrac : nat -> Real;
  _volfrac_var : nat;
  _u_dot : nat -> Real
}.

Definition coupled_vars (k : params) : list nat :=
  [_density_var k; _heat_cap_var k; _volfrac_var k].

Section Kernel.

Variable CoefTimeDerivative_computeQpResidual :
  Real -> params -> Assembly -> nat -> nat -> Real.
Variable CoefTimeDerivative_computeQpJacobian :
  Real -> params -> Assembly -> nat -> nat -> nat -> Real.

Definition computeQpResidual (k : params) (a : Assembly) (i qp : nat) : Real :=
  let _coef := _density k qp * _heat_cap k qp * _volfrac k qp in
  CoefTimeDerivative_computeQpResidual _coef k a i qp.

Definition computeQpJacobian (k : params) (a : Assembly) (i j qp : nat) : Real :=
  let _coef := _density k qp * _heat_cap k qp * _volfrac k qp in
  CoefTimeDerivative_computeQpJacobian _coef k a i j qp.

End Kernel.

Definition computeQpOffDiagJacobian
    (k : params) (a : Assembly) (i j qp : nat) (jvar : nat) : Real :=
  if decide (jvar = _density_var k) then
    _phi a j qp * _heat_cap k qp * _volfrac k qp * _test a i qp * _u_dot k qp
  else if decide (jvar = _heat_cap_var k) then
    _density k qp * _phi a j qp * _volfrac k qp * _test a i qp * _u_dot k qp
  else if decide (jvar = _volfrac_var k) then
    _density k qp * _heat_cap k qp * _phi a j qp * _test a i qp * _u_dot k qp
  else 0.

End HeatAccumulation.

(** ** Varying one input of a kernel

    A Jacobian entry is meant to be the rate at which a residual changes when
    one degree of freedom of a variable moves: the field of the variable moves
    from [f] to [f + h * phi_j].  The definitions below replace one field of
    the inputs of a kernel, so that this can be said of the code. *)
Module Vary.

Definition shift (f d : nat -> Real) (h : Real) : nat -> Real :=
  fun qp => f qp + h * d qp.

Definition vshift (g d : nat -> RealVectorValue) (h : Real)
  : nat -> RealVectorValue :=
  fun qp => mkVec (vx (g qp) + h * vx (d qp))
                  (vy (g qp) + h * vy (d qp))
                  (vz (g qp) + h * vz (d qp)).

Definition with_u (a : Assembly) (u : nat -> Real) : Assembly :=
  mkAssembly (test_size a) (phi_size a) (n_points a) (_test a) (_grad_test a)
    (_phi a) (_grad_phi a) u (_grad_u a) (_u_nodal a) (_normals a)
    (_JxW a) (_coord a).

Definition with_grad_u (a : Assembly) (g : nat -> RealVectorValue) : Assembly :=
  mkAssembly (test_size a) (phi_size a) (n_points a) (_test a) (_grad_test a)
    (_phi a) (_grad_phi a) (_u a) g (_u_nodal a) (_normals a)
    (_JxW a) (_coord a).

Definition with_u_nodal (a : Assembly) (un : nat -> Real) : Assembly :=
  mkAssembly (test_size a) (phi_size a) (n_points a) (_test a) (_grad_test a)
    (_phi a) (_grad_phi a) (_u a) (_grad_u a) un (_normals a)
    (_JxW a) (_coord a).

(** The nodal value of node [j] moves by [h]. *)
Definition nudge_nodal (a : Assembly) (j : nat) (h : Real) : Assembly :=
  with_u_nodal a (fun n => if decide (n = j) then _u_nodal a n + h
                           else _u_nodal a n).

(** The coupled variables of the advection kernel. *)
Inductive advection_coupling := ADensity | AHeatCap | AVolFrac | AUx | AUy | AUz.

Definition advection_value (k : HeatAdvectionConservative.params)
    (c : advection_coupling) : nat -> Real :=
  match c with
  | ADensity => HeatAdvectionConservative._density k
  | AHeatCap => HeatAdvectionConservative._heat_cap k
  | AVolFrac => HeatAdvectionConservative._volfrac k
  | AUx => HeatAdvectionConservative._ux k
  | AUy => HeatAdvectionConservative._uy k
  | AUz => HeatAdvectionConservative._uz k
  end.

Definition advection_ident (k : HeatAdvectionConservative.params)
    (c : advection_coupling) : nat :=
  match c with
  | ADensity => HeatAdvectionConservative._density_var k
  | AHeatCap => HeatAdvectionConservative._heat_cap_var k
  | AVolFrac => HeatAdvectionConservative._volfrac_var k
  | AUx => HeatAdvectionConservative._ux_var k
  | AUy => HeatAdvectionConservative._uy_var k
  | AUz => HeatAdvectionConservative._uz_var k
  end.

Definition advection_with (k : HeatAdvectionConservative.params)
    (c : advection_coupling) (f : nat -> Real)
  : HeatAdvectionConservative.params :=
  match k with
  | HeatAdvectionConservative.mkParams d dv hc hv vf vv ux uxv uy uyv uz uzv
      up hs si hd di =>
      match c with
      | ADensity => HeatAdvectionConservative.mkParams
                      f dv hc hv vf vv ux uxv uy uyv uz uzv up hs si hd di
      | AHeatCap => HeatAdvectionConservative.mkParams
                      d dv f hv vf vv ux uxv uy uyv uz uzv up hs si hd di
      | AVolFrac => HeatAdvectionConservative.mkParams
                      d dv hc hv f vv ux uxv uy uyv uz uzv up hs si hd di
      | AUx => HeatAdvectionConservative.mkParams
                 d dv hc hv vf vv f uxv uy uyv uz uzv up hs si hd di
      | AUy => HeatAdvectionConservative.mkParams
                 d dv hc hv vf vv ux uxv f uyv uz uzv up hs si hd di
      | AUz => HeatAdvectionConservative.mkParams
                 d dv hc hv vf vv ux uxv uy uyv f uzv up hs si hd di
      end
  end.

(** The velocity reversed. *)
Definition advection_reverse (k : HeatAdvectionConservative.params)
  : HeatAdvectionConservative.params :=
  match k with
  | HeatAdvectionConservative.mkParams d dv hc hv vf vv ux uxv uy uyv uz uzv
      up hs si hd di =>
      HeatAdvectionConservative.mkParams d dv hc hv vf vv
        (fun qp => - ux qp) uxv (fun qp => - uy qp) uyv (fun qp => - uz qp) uzv
        up hs si hd di
  end.

(** The velocity component [c] (0, 1, 2) of the flux boundary condition. *)
Definition flux_velocity (k : ThermalFluidFluxBC.params) (c : nat) : nat -> Real :=
  match c with
  | 0%nat => ThermalFluidFluxBC._ux k
  | 1%nat => ThermalFluidFluxBC._uy k
  | _ => ThermalFluidFluxBC._uz k
  end.

Definition flux_with_velocity (k : ThermalFluidFluxBC.params) (c : nat)
    (f : nat -> Real) : ThermalFluidFluxBC.params :=
  match k with
  | ThermalFluidFluxBC.mkParams d dv hc hv vf vv ux uxv uy uyv uz uzv ot otv =>
      match c with
      | 0%nat => ThermalFluidFluxBC.mkParams d dv hc hv vf vv f uxv uy uyv uz uzv ot otv
      | 1%nat => ThermalFluidFluxBC.mkParams d dv hc hv vf vv ux uxv f uyv uz uzv ot otv
      | _ => ThermalFluidFluxBC.mkParams d dv hc hv vf vv ux uxv uy uyv f uzv ot otv
      end
  end.

(** The coupled coefficients of the flux boundary condition. *)
Inductive flux_coefficient := FDensity | FHeatCap | FVolFrac.

Definition flux_value (k : ThermalFluidFluxBC.params) (c : flux_coefficient)
  : nat -> Real :=
  match c with
  | FDensity => ThermalFluidFluxBC._density k
  | FHeatCap => ThermalFluidFluxBC._heat_cap k
  | FVolFrac => ThermalFluidFluxBC._volfrac k
  end.

Definition flux_ident (k : ThermalFluidFluxBC.params) (c : flux_coefficient) : nat :=
  match c with
  | FDensity => ThermalFluidFluxBC._density_var k
  | FHeatCap => ThermalFluidFluxBC._heat_cap_var k
  | FVolFrac => ThermalFluidFluxBC._volfrac_var k
  end.

Definition flux_with (k : ThermalFluidFluxBC.params) (c : flux_coefficient)
    (f : nat -> Real) : ThermalFluidFluxBC.params :=
  match k with
  | ThermalFluidFluxBC.mkParams d dv hc hv vf vv ux uxv uy uyv uz uzv ot otv =>
      match c with
      | FDensity => ThermalFluidFluxBC.mkParams f dv hc hv vf vv ux uxv uy uyv uz uzv ot otv
      | FHeatCap => ThermalFluidFluxBC.mkParams d dv f hv vf vv ux uxv uy uyv uz uzv ot otv
      | FVolFrac => ThermalFluidFluxBC.mkParams d dv hc hv f vv ux uxv uy uyv uz uzv ot otv
      end
  end.

Definition flux_with_outside_temp (k : ThermalFluidFluxBC.params)
    (f : nat -> Real) : ThermalFluidFluxBC.params :=
  match k with
  | ThermalFluidFluxBC.mkParams d dv hc hv vf vv ux uxv uy uyv uz uzv ot otv =>
      ThermalFluidFluxBC.mkParams d dv hc hv vf vv ux uxv uy uyv uz uzv f otv
  end.

(** The coupled variables of the convection kernel. *)
Inductive convection_coupling := VOtherTemp | VHs | VVolFrac | VSpecArea.

Definition convection_value (k : HeatConvection.params)
    (c : convection_coupling) : nat -> Real :=
  match c with
  | VOtherTemp => HeatConvection._other_temp k
  | VHs => HeatConvection._hs k
  | VVolFrac => HeatConvection._volfrac k
  | VSpecArea => HeatConvection._specarea k
  end.

Definition convection_ident (k : HeatConvection.params)
    (c : convection_coupling) : nat :=
  match c with
  | VOtherTemp => HeatConvection._other_temp_var k
  | VHs => HeatConvection._hs_var k
  | VVolFrac => HeatConvection._volfrac_var k
  | VSpecArea => HeatConvection._specarea_var k
  end.

Definition convection_with (k : HeatConvection.params)
    (c : convection_coupling) (f : nat -> Real) : HeatConvection.params :=
  match k with
  | HeatConvection.mkParams hs hsv ot otv vf vfv sa sav =>
      match c with
      | VOtherTemp => HeatConvection.mkParams hs hsv f otv vf vfv sa sav
      | VHs => HeatConvection.mkParams f hsv ot otv vf vfv sa sav
      | VVolFrac => HeatConvection.mkParams hs hsv ot otv f vfv sa sav
      | VSpecArea => HeatConvection.mkParams hs hsv ot otv vf vfv f sav
      end
  end.

(** The coupled variables of the conduction kernel. *)
Inductive conduction_coupling := DConductivity | DVolFrac.

Definition conduction_value (k : HeatConduction.params)
    (c : conduction_coupling) : nat -> Real :=
  match c with
  | DConductivity => HeatConduction._conductivity k
  | DVolFrac => HeatConduction._volfrac k
  end.

Definition conduction_ident (k : HeatConduction.params)
    (c : conduction_coupling) : nat :=
  match c with
  | DConductivity => HeatConduction._conductivity_var k
  | DVolFrac => HeatConduction._volfrac_var k
  end.

Definition conduction_with (k : HeatConduction.params)
    (c : conduction_coupling) (f : nat -> Real) : HeatConduction.params :=
  match k with
  | HeatConduction.mkParams kc kcv vf vfv =>
      match c with
      | DConductivity => HeatConduction.mkParams f kcv vf vfv
      | DVolFrac => HeatConduction.mkParams kc kcv f vfv
      end
  end.

(** The coupled variables of the accumulation kernel. *)
Inductive accumulation_coupling := CDensity | CHeatCap | CVolFrac.

Definition accumulation_value (k : HeatAccumulation.params)
    (c : accumulation_coupling) : nat -> Real :=
  match c with
  | CDensity => HeatAccumulation._density k
  | CHeatCap => HeatAccumulation._heat_cap k
  | CVolFrac => HeatAccumulation._volfrac k
  end.

Definition accumulation_ident (k : HeatAccumulation.params)
    (c : accumulation_coupling) : nat :=
  match c with
  | CDensity => HeatAccumulation._density_var k
  | CHeatCap => HeatAccumulation._heat_cap_var k
  | CVolFrac => HeatAccumulation._volfrac_var k
  end.

Definition accumulation_with (k : HeatAccumulation.params)
    (c : accumulation_coupling) (f : nat -> Real) : HeatAccumulation.params :=
  match k with
  | HeatAccumulation.mkParams d dv hc hv vf vv ud =>
      match c with
      | CDensity => HeatAccumulation.mkParams f dv hc hv vf vv ud
      | CHeatCap => HeatAccumulation.mkParams d dv f hv vf vv ud
      | CVolFrac => HeatAccumulation.mkParams d dv hc hv f vv ud
      end
  end.

(** The sum of the entries of a vector. *)
Definition sum_list (v : list Real) : Real := foldr Qcplus 0 v.

(** What [add_vector v dofs] adds at the global index [d]: the entries of
    [v] whose degree of freedom is [d]. *)
Fixpoint gather (d : nat) (dofs : list nat) (v : list Real) : Real :=
  match dofs, v with
  | d' :: dofs', x :: v' =>
      (if decide (d' = d) then x else 0) + gather d dofs' v'
  | _, _ => 0
  end.

End Vary.

(** ** More concrete inputs *)
Module MoreExamples.

Definition source : HeatSource.params :=
  HeatSource.mkParams (fun _ => Q2Qc 7) 40.

Definition accumulation : HeatAccumulation.params :=
  HeatAccumulation.mkParams
    (fun _ => Q2Qc 2) 50 (fun _ => Q2Qc 3) 51 (fun _ => Examples.half) 52
    (fun _ => Q2Qc 4).

(** A residual for the base class of the accumulation kernel: the
    coefficient times the test function times the time derivative. *)
Definition time_derivative (coef : Real) (k : HeatAccumulation.params)
    (a : Assembly) (i qp : nat) : Real :=
  coef * (_test a i qp * HeatAccumulation._u_dot k qp).

(** The line element with the unknown at the outside temperature of
    [Examples.convection]. *)
Definition line_at_rest : Assembly :=
  Vary.with_u (Examples.line 2 2) (fun _ => Q2Qc 300).


(** A four-node element with one quadrature point of unit weight; the
    gradients of its test functions, [6, 1, -3, -4] along x, add up to zero,
    and the nodal values are 1, 2, 3, 4. *)
Definition quad_grad (i : nat) : RealVectorValue :=
  mkVec (nth i [Q2Qc 6; Q2Qc 1; Q2Qc (-3); Q2Qc (-4)] 0) 0 0.

Definition quad : Assembly :=
  mkAssembly 4 4 1
    (fun _ _ => Q2Qc (1 # 4)) (fun i _ => quad_grad i)
    (fun _ _ => Q2Qc (1 # 4)) (fun j _ => quad_grad j)
    (fun _ => Q2Qc (5 # 2)) (fun _ => mkVec 0 0 0)
    (fun n => nth n [Q2Qc 1; Q2Qc 2; Q2Qc 3; Q2Qc 4] 0)
    (fun _ => mkVec 1 0 0)
    (fun _ => 1) (fun _ => 1).

End MoreExamples.

(** ** The residual pass in binary64

    [Real] is a C++ [double].  The module transcribes the residual pass of
    [fullUpwind], the path [res_or_jac == CALCULATE_RESIDUAL] takes, once
    more over IEEE 754 binary64 numbers with the operations of the source in
    their order.  The quotient is the rounded quotient of the machine: it
    raises nothing. *)
Module Binary64.

Abbreviation Real := float.

Record RealVectorValue := mkVec { vx : Real; vy : Real; vz : Real }.

Definition dot (a b : RealVectorValue) : Real :=
  (vx a * vx b + vy a * vy b + vz a * vz b)%float.

(** What the pass reads from the framework. *)
Record Assembly := mkAssembly {
  test_size : nat;
  n_points : nat;
  _grad_test : nat -> nat -> RealVectorValue;
  _u_nodal : nat -> Real;
  _JxW : nat -> Real;
  _coord : nat -> Real
}.

Record params := mkParams {
  _density : nat -> Real;
  _heat_cap : nat -> Real;
  _volfrac : nat -> Real;
  _ux : nat -> Real;
  _uy : nat -> Real;
  _uz : nat -> Real;
  _has_save_in : bool;
  _save_in : list (list nat)
}.

Record state := mkState {
  _local_re : list Real;
  _upwind_node : list bool;
  total_mass_out : Real;
  total_in : Real;
  re_blocks : list (list Real);
  solution : gmap nat Real
}.

Definition set_local_re (v : list Real) (s : state) : state :=
  mkState v (_upwind_node s) (total_mass_out s) (total_in s)
          (re_blocks s) (solution s).

Definition set_upwind_node (v : list bool) (s : state) : state :=
  mkState (_local_re s) v (total_mass_out s) (total_in s)
          (re_blocks s) (solution s).

Definition set_total_mass_out (x : Real) (s : state) : state :=
  mkState (_local_re s) (_upwind_node s) x (total_in s)
          (re_blocks s) (solution s).

Definition set_total_in (x : Real) (s : state) : state :=
  mkState (_local_re s) (_upwind_node s) (total_mass_out s) x
          (re_blocks s) (solution s).

Definition add_vector (v : list Real) (dofs : list nat) (sol : gmap nat Real)
  : gmap nat Real :=
  foldl (fun acc '(d, x) => <[d := (default 0 (acc !! d) + x)%float]> acc)
        sol (zip dofs v).

Section Kernel.

Variable k : params.
Variable a : Assembly.

Definition _vec (qp : nat) : RealVectorValue :=
  mkVec (_ux k qp) (_uy k qp) (_uz k qp).

Definition negSpeedQp (i qp : nat) : Real :=
  (- (dot (_grad_test a i qp) (_vec qp))
   * _density k qp * _heat_cap k qp * _volfrac k qp)%float.

(** [_local_re(_i) += _JxW[_qp] * _coord[_qp] * negSpeedQp()] *)
Definition outflux_qp (i qp : nat) (s : state) : result state :=
  r <- vec_get (_local_re s) i ;;
  re <- vec_set (_local_re s) i
          (r + _JxW a qp * _coord a qp * negSpeedQp i qp)%float ;;
  Ok (set_local_re re s).

(** [_upwind_node[_i] = (_local_re(_i) >= 0.0)] *)
Definition outflux_node (i : nat) (s : state) : result state :=
  s <- for_loop (n_points a) (outflux_qp i) s ;;
  r <- vec_get (_local_re s) i ;;
  up <- vec_set (_upwind_node s) i (0 <=? r)%float ;;
  Ok (set_upwind_node up s).

Definition mass_node (n : nat) (s : state) : result state :=
  up <- vec_get (_upwind_node s) n ;;
  if (up : bool) then
    r <- vec_get (_local_re s) n ;;
    re <- vec_set (_local_re s) n (r * _u_nodal a n)%float ;;
    let s := set_local_re re s in
    r <- vec_get (_local_re s) n ;;
    Ok (set_total_mass_out (total_mass_out s + r)%float s)
  else
    r <- vec_get (_local_re s) n ;;
    Ok (set_total_in (total_in s - r)%float s).

(** [_local_re(n) *= total_mass_out / total_in] *)
Definition redistribute_node (n : nat) (s : state) : result state :=
  up <- vec_get (_upwind_node s) n ;;
  if negb up then
    r <- vec_get (_local_re s) n ;;
    re <- vec_set (_local_re s) n (r * (total_mass_out s / total_in s))%float ;;
    Ok (set_local_re re s)
  else Ok s.

Definition fullUpwind_residual (s : state) : result state :=
  let num_nodes := test_size a in
  let s := set_local_re (replicate num_nodes 0%float) s in
  let s := set_upwind_node (resize num_nodes false (_upwind_node s)) s in
  s <- for_loop num_nodes outflux_node s ;;
  let s := set_total_in 0%float (set_total_mass_out 0%float s) in
  s <- for_loop num_nodes mass_node s ;;
  s <- for_loop num_nodes redistribute_node s ;;
  let s := mkState (_local_re s) (_upwind_node s) (total_mass_out s) (total_in s)
             (map (fun re => zip_with PrimFloat.add re (_local_re s)) (re_blocks s))
             (solution s) in
  Ok (if _has_save_in k
      then mkState (_local_re s) (_upwind_node s) (total_mass_out s) (total_in s)
             (re_blocks s)
             (foldl (fun sol dofs => add_vector (_local_re s) dofs sol)
                    (solution s) (_save_in k))
      else s).

(** The raw outflux, the classes and the two totals, as in the exact
    model. *)
Fixpoint outflux_upto (i q : nat) : Real :=
  match q with
  | O => 0%float
  | S q' => (outflux_upto i q' + _JxW a q' * _coord a q' * negSpeedQp i q')%float
  end.

Definition rawFlux (i : nat) : Real := outflux_upto i (n_points a).

Definition upwind (i : nat) : bool := (0 <=? rawFlux i)%float.

Definition downwind (i : nat) : bool := negb (upwind i).

Fixpoint mass_out_upto (n : nat) : Real :=
  match n with
  | O => 0%float
  | S n' => if upwind n'
            then (mass_out_upto n' + rawFlux n' * _u_nodal a n')%float
            else mass_out_upto n'
  end.

Fixpoint in_upto (n : nat) : Real :=
  match n with
  | O => 0%float
  | S n' => if upwind n' then in_upto n' else (in_upto n' - rawFlux n')%float
  end.

Definition totalMassOut : Real := mass_out_upto (test_size a).
Definition totalIn : Real := in_upto (test_size a).

End Kernel.

Fixpoint sum_where (p : nat -> bool) (f : nat -> Real) (n : nat) : Real :=
  match n with
  | O => 0%float
  | S n' => if p n' then (sum_where p f n' + f n')%float else sum_where p f n'
  end.

(** A four-node element with one quadrature point of unit weight; the
    gradients of its test functions, [6, 1, -3, -4] along x, add up to
    zero.  The velocity is one along x, the material coefficients are one,
    and the nodal values are 1, 2, 3, 4. *)
Definition quad : Assembly :=
  mkAssembly 4 1
    (fun i _ => mkVec (nth i [6; 1; -3; -4]%float 0%float) 0 0)
    (fun n => nth n [1; 2; 3; 4]%float 0%float)
    (fun _ => 1%float) (fun _ => 1%float).

Definition stream : params :=
  mkParams (fun _ => 1%float) (fun _ => 1%float) (fun _ => 1%float)
           (fun _ => 1%float) (fun _ => 0%float) (fun _ => 0%float)
           false [].

Definition fresh : state := mkState [] [] 0%float 0%float [] ∅.

End Binary64.

(* ================================================================== *)
(** * Part II: properties                                              *)
(* ================================================================== *)

(** ** Evaluation and order facts on the rationals *)

(** Closed goals over [Qc]: equalities through the canonical form,
    order and disequalities by evaluation. *)
Ltac qc_eval :=
  first [ apply Qc_is_canon; vm_compute; reflexivity
        | vm_compute; done ].

Lemma Qc_le_0_not_lt (x : Real) : x ≤ 0 → ¬ 0 < x.
Proof. intros H. by apply Qcle_not_lt. Qed.

(** ** The thermal fluid flux boundary condition *)
Module FluxBC.
Import ThermalFluidFluxBC.

Section Branches.

Variables (k : params) (a : Assembly) (i j qp : nat).

(** C4: at a boundary quadrature point, when the advective flux direction
    [v . n] is non-positive (inflow) [computeQpJacobian] returns exactly
    zero, and when it is positive (outflow) it returns
    [test * (v . n) * phi * density * heat_capacity * volume_fraction]. *)
Theorem jacobian_by_branch :
  (flux_dir k a qp ≤ 0 → computeQpJacobian k a i j qp = 0) ∧
  (0 < flux_dir k a qp →
     computeQpJacobian k a i j qp
     = _test a i qp * flux_dir k a qp * _phi a j qp
       * _density k qp * _heat_cap k qp * _volfrac k qp).
Proof.
  unfold computeQpJacobian. split; intros Hdir.
  - destruct (decide (0 < flux_dir k a qp)) as [Hpos|_].
    + by apply Qc_le_0_not_lt in Hdir.
    + ring.
  - destruct (decide (0 < flux_dir k a qp)) as [_|Hn]; [ring | done].
Qed.

(** C6: when [v . n = 0] the two arms of [computeQpResidual] have the same
    value, zero, and so has the residual whichever arm is taken. *)
Theorem residual_continuous_at_crossing :
  flux_dir k a qp = 0 →
  residual_output k a i qp = 0 ∧ residual_input k a i qp = 0 ∧
  residual_output k a i qp = residual_input k a i qp ∧
  computeQpResidual k a i qp = 0.
Proof.
  intros Hz.
  assert (Hout : residual_output k a i qp = 0).
  { unfold residual_output. rewrite Hz. ring. }
  assert (Hin : residual_input k a i qp = 0).
  { unfold residual_input. rewrite Hz. ring. }
  repeat split; [done | done | congruence |].
  unfold computeQpResidual. by destruct (decide _).
Qed.

(** The value the velocity arms of the off-diagonal Jacobian are said to
    return for component [c]. *)
Lemma offdiag_arm_value (c : nat) :
  offdiag_arm k a i j qp c
  = _test a i qp * _phi a j qp * comp (_normals a qp) c
    * _density k qp * _heat_cap k qp * _volfrac k qp
    * (if decide (0 < flux_dir k a qp) then _u a qp else _outside_temp k qp).
Proof. unfold offdiag_arm. destruct (decide _); ring. Qed.

(** The identifier chain of [computeQpOffDiagJacobian] returns at its first
    match: for the velocity component [c], when no component tested before
    it (x before y before z) carries the same identifier, the entry is
    [test * phi * n(c) * density * heat_capacity * volume_fraction] times the
    interior unknown when [v . n > 0] and times the outside temperature when
    [v . n <= 0].  Three variables of their own for the three components
    meet the condition for every component. *)
Lemma offdiag_velocity_first_match (c : nat) :
  (c < 3)%nat →
  (∀ c', (c' < c)%nat → vel_var k c' ≠ vel_var k c) →
  computeQpOffDiagJacobian k a i j qp (vel_var k c)
  = _test a i qp * _phi a j qp * comp (_normals a qp) c
    * _density k qp * _heat_cap k qp * _volfrac k qp
    * (if decide (0 < flux_dir k a qp) then _u a qp else _outside_temp k qp).
Proof.
  intros Hc Hfirst. rewrite <- offdiag_arm_value.
  unfold computeQpOffDiagJacobian.
  destruct c as [|[|[|c]]]; [| | | lia]; simpl in *.
  - by rewrite decide_True.
  - rewrite decide_False by (intros E; by apply (Hfirst 0%nat); [lia|]).
    by rewrite decide_True.
  - rewrite decide_False by (intros E; by apply (Hfirst 0%nat); [lia|]).
    rewrite decide_False by (intros E; by apply (Hfirst 1%nat); [lia|]).
    by rewrite decide_True.
Qed.

End Branches.



Lemma jacobian_by_branch_witness :
  computeQpJacobian (Examples.flux_bc (- 1) 13 14 15) (Examples.line 2 2) 0 0 0 = 0 ∧
  computeQpJacobian (Examples.flux_bc 1 13 14 15) (Examples.line 2 2) 0 0 0
  = Q2Qc (3 # 2).
Proof.
  split.
  - apply (jacobian_by_branch (Examples.flux_bc (- 1) 13 14 15) (Examples.line 2 2) 0 0 0).
    qc_eval.
  - rewrite (proj2 (jacobian_by_branch (Examples.flux_bc 1 13 14 15)
                      (Examples.line 2 2) 0 0 0)); qc_eval.
Defined.

Lemma residual_continuous_at_crossing_witness :
  computeQpResidual (Examples.flux_bc 0 13 14 15) (Examples.line 2 2) 0 0 = 0.
Proof.
  apply (residual_continuous_at_crossing
           (Examples.flux_bc 0 13 14 15) (Examples.line 2 2) 0 0).
  qc_eval.
Defined.

End FluxBC.

(** ** Heat convection *)
Module Convection.
Import HeatConvection.

(** C7: with [h = 5], [A = 3], [volfrac = 0.5], [u = 400] and [u_other = 300]
    at the quadrature point, [computeQpResidual] returns [test * 750] and
    [computeQpOffDiagJacobian] for the coupled temperature returns
    [- test * 7.5 * trial]. *)
Theorem convection_scenario (k : params) (a : Assembly) (i j qp : nat) :
  _hs k qp = Q2Qc 5 →
  _specarea k qp = Q2Qc 3 →
  _volfrac k qp = Q2Qc (1 # 2) →
  _u a qp = Q2Qc 400 →
  _other_temp k qp = Q2Qc 300 →
  computeQpResidual k a i qp = _test a i qp * Q2Qc 750 ∧
  computeQpOffDiagJacobian k a i j qp (_other_temp_var k)
  = - _test a i qp * Q2Qc (15 # 2) * _phi a j qp.
Proof.
  intros Hh HA Hv Hu Ho.
  assert (E1 : Q2Qc 5 * Q2Qc 3 * Q2Qc (1 # 2) * (Q2Qc 400 - Q2Qc 300)
               = Q2Qc 750) by qc_eval.
  assert (E2 : Q2Qc 5 * Q2Qc 3 * Q2Qc (1 # 2) = Q2Qc (15 # 2)) by qc_eval.
  unfold computeQpResidual, computeQpOffDiagJacobian.
  rewrite decide_True by done.
  rewrite Hh, HA, Hv, Hu, Ho, <- E1, <- E2. split; ring.
Qed.

Lemma convection_scenario_witness :
  computeQpResidual Examples.convection (Examples.line 2 2) 0 0 = Q2Qc 375.
Proof.
  rewrite (proj1 (convection_scenario Examples.convection (Examples.line 2 2)
                    0 0 0 eq_refl eq_refl eq_refl eq_refl eq_refl)).
  qc_eval.
Defined.

End Convection.

(** ** Runs, loops and containers *)
Lemma steps_to_bind {A B} (G : fault → Prop)
    (r : result A) (f : A → result B) (x : A) (y : B) :
  steps_to G r x → steps_to G (f x) y → steps_to G (bind r f) y.
Proof. destruct r as [x'|e]; simpl; [by intros -> | done]. Qed.

Lemma bind_ok_inv {A B} (r : result A) (f : A → result B) (y : B) :
  bind r f = Ok y → ∃ x, r = Ok x ∧ f x = Ok y.
Proof. destruct r as [x|e]; simpl; [eauto | done]. Qed.

Section Runs.

Context {A : Type}.
Implicit Types (G : fault → Prop).

Lemma steps_to_ok G (r : result A) (x : A) : r = Ok x → steps_to G r x.
Proof. by intros ->. Qed.

Lemma steps_to_total (r : result A) (x : A) :
  steps_to (λ _, False) r x → r = Ok x.
Proof. destruct r; simpl; [congruence | done]. Qed.

Lemma steps_to_inv G (r : result A) (x y : A) :
  steps_to G r x → r = Ok y → y = x.
Proof. intros H ->. exact H. Qed.

Lemma for_range_steps G (body : nat → A → result A) (F : nat → A) n lo :
  (∀ i, (i < n)%nat → steps_to G (body (lo + i)%nat (F i)) (F (S i))) →
  steps_to G (for_range lo n body (F 0%nat)) (F n).
Proof.
  revert lo F. induction n as [|n IH]; intros lo F Hstep; [done|].
  simpl. eapply steps_to_bind.
  - specialize (Hstep 0%nat). rewrite Nat.add_0_r in Hstep. apply Hstep. lia.
  - apply (IH (S lo) (λ i, F (S i))). intros i Hi.
    replace (S lo + i)%nat with (lo + S i)%nat by lia. apply Hstep. lia.
Qed.

Lemma for_loop_steps G (body : nat → A → result A) (F : nat → A) n :
  (∀ i, (i < n)%nat → steps_to G (body i (F i)) (F (S i))) →
  steps_to G (for_loop n body (F 0%nat)) (F n).
Proof. intros H. by apply for_range_steps. Qed.

(** A loop that completes has completed every iteration. *)
Lemma for_range_ok_steps G (body : nat → A → result A) (F : nat → A) n lo s' :
  (∀ i, (i < n)%nat → steps_to G (body (lo + i)%nat (F i)) (F (S i))) →
  for_range lo n body (F 0%nat) = Ok s' →
  ∀ i, (i < n)%nat → body (lo + i)%nat (F i) = Ok (F (S i)).
Proof.
  revert lo F. induction n as [|n IH]; intros lo F Hstep Hrun i Hi; [lia|].
  simpl in Hrun. apply bind_ok_inv in Hrun as (x & Hx & Hrest).
  assert (x = F 1%nat) as ->.
  { specialize (Hstep 0%nat). rewrite Nat.add_0_r, Hx in Hstep.
    apply Hstep. lia. }
  destruct i as [|i].
  - by rewrite Nat.add_0_r.
  - replace (lo + S i)%nat with (S lo + i)%nat by lia.
    apply (IH (S lo) (λ j, F (S j))); [| done | lia].
    intros j Hj. replace (S lo + j)%nat with (lo + S j)%nat by lia.
    apply Hstep. lia.
Qed.

Lemma for_loop_ok_steps G (body : nat → A → result A) (F : nat → A) n s' :
  (∀ i, (i < n)%nat → steps_to G (body i (F i)) (F (S i))) →
  for_loop n body (F 0%nat) = Ok s' →
  ∀ i, (i < n)%nat → body i (F i) = Ok (F (S i)).
Proof. intros Hstep Hrun. by apply (for_range_ok_steps G body F n 0 s'). Qed.

Lemma length_tabulate n (f : nat → A) : length (tabulate n f) = n.
Proof. unfold tabulate. by rewrite length_fmap, length_seq. Qed.

Lemma lookup_tabulate n (f : nat → A) i :
  (i < n)%nat → tabulate n f !! i = Some (f i).
Proof.
  intros Hi. unfold tabulate. by rewrite list_lookup_fmap, lookup_seq_lt.
Qed.

Lemma tabulate_ext n (f g : nat → A) :
  (∀ i, (i < n)%nat → f i = g i) → tabulate n f = tabulate n g.
Proof.
  intros H. apply list_eq. intros i.
  destruct (decide (i < n)%nat) as [Hi|Hi].
  - rewrite !lookup_tabulate by done. f_equal. auto.
  - rewrite !lookup_ge_None_2; [done | rewrite length_tabulate; lia ..].
Qed.

Lemma replicate_tabulate n (x : A) : replicate n x = tabulate n (λ _, x).
Proof.
  apply list_eq. intros i. destruct (decide (i < n)%nat) as [Hi|Hi].
  - by rewrite lookup_tabulate, lookup_replicate_2.
  - rewrite !lookup_ge_None_2;
      [done | rewrite length_tabulate; lia | rewrite length_replicate; lia].
Qed.

Lemma resize_tabulate n (d : A) (l : list A) :
  resize n d l = tabulate n (λ i, default d (l !! i)).
Proof.
  apply list_eq. intros i. destruct (decide (i < n)%nat) as [Hi|Hi].
  - rewrite lookup_tabulate by done.
    destruct (l !! i) as [x|] eqn:E; simpl.
    + rewrite lookup_resize; [done | done | by eapply lookup_lt_Some].
    + apply lookup_ge_None in E. by rewrite lookup_resize_new.
  - rewrite !lookup_ge_None_2;
      [done | rewrite length_tabulate; lia | rewrite length_resize; lia].
Qed.

Lemma vec_get_tabulate n (f : nat → A) i :
  (i < n)%nat → vec_get (tabulate n f) i = Ok (f i).
Proof. intros Hi. unfold vec_get. by rewrite lookup_tabulate. Qed.

Lemma vec_get_tabulate_ge n (f : nat → A) i :
  (n ≤ i)%nat → vec_get (tabulate n f) i = Fault OutOfRange.
Proof.
  intros Hi. unfold vec_get.
  rewrite lookup_ge_None_2; [done | rewrite length_tabulate; lia].
Qed.

Lemma vec_set_tabulate n (f g : nat → A) i x :
  (i < n)%nat → g i = x → (∀ i', (i' < n)%nat → i' ≠ i → g i' = f i') →
  vec_set (tabulate n f) i x = Ok (tabulate n g).
Proof.
  intros Hi Hx Hg. unfold vec_set.
  rewrite decide_True by (by rewrite length_tabulate). f_equal.
  apply list_eq. intros i'. destruct (decide (i' = i)) as [->|Hne].
  - rewrite list_lookup_insert_eq by (by rewrite length_tabulate).
    by rewrite lookup_tabulate, Hx.
  - rewrite list_lookup_insert_ne by done.
    destruct (decide (i' < n)%nat) as [Hi'|Hi'].
    + rewrite !lookup_tabulate by done. f_equal. symmetry. auto.
    + rewrite !lookup_ge_None_2; [done | rewrite length_tabulate; lia ..].
Qed.

End Runs.

Section Matrices.

Implicit Types (e : nat → nat → Real).

Lemma flat_index_div (n i j : nat) : (j < n)%nat → ((i * n + j) / n)%nat = i.
Proof.
  intros Hj. rewrite Nat.div_add_l by lia. rewrite Nat.div_small by done. lia.
Qed.

Lemma flat_index_mod (n i j : nat) : (j < n)%nat → ((i * n + j) mod n)%nat = j.
Proof.
  intros Hj. rewrite Nat.add_comm, Nat.Div0.mod_add. by apply Nat.mod_small.
Qed.

Lemma flat_index_lt (m n i j : nat) :
  (i < m)%nat → (j < n)%nat → (i * n + j < m * n)%nat.
Proof. nia. Qed.

Lemma mat_zero_tabulate m n : mat_zero m n = mat_tabulate m n (λ _ _, 0).
Proof. unfold mat_zero, mat_tabulate. by rewrite replicate_tabulate. Qed.

Lemma mat_tabulate_ext m n e e' :
  (∀ i j, (i < m)%nat → (j < n)%nat → e i j = e' i j) →
  mat_tabulate m n e = mat_tabulate m n e'.
Proof.
  intros H. unfold mat_tabulate. f_equal. apply tabulate_ext. intros p Hp.
  assert (0 < n)%nat by (destruct n; lia).
  apply H.
  - apply Nat.Div0.div_lt_upper_bound. lia.
  - by apply Nat.mod_upper_bound, Nat.neq_0_lt_0.
Qed.

Lemma mat_get_tabulate m n e i j :
  (i < m)%nat → (j < n)%nat → mat_get (mat_tabulate m n e) i j = Ok (e i j).
Proof.
  intros Hi Hj. unfold mat_get; simpl. rewrite decide_True by done.
  rewrite vec_get_tabulate by (by apply flat_index_lt).
  by rewrite flat_index_div, flat_index_mod.
Qed.

Lemma mat_get_tabulate_ge m n e i j :
  ¬ ((i < m)%nat ∧ (j < n)%nat) →
  mat_get (mat_tabulate m n e) i j = Fault OutOfRange.
Proof. intros H. unfold mat_get; simpl. by rewrite decide_False. Qed.

Lemma mat_set_tabulate m n e e' i j x :
  (i < m)%nat → (j < n)%nat → e' i j = x →
  (∀ i' j', (i' < m)%nat → (j' < n)%nat → ¬ (i' = i ∧ j' = j) → e' i' j' = e i' j') →
  mat_set (mat_tabulate m n e) i j x = Ok (mat_tabulate m n e').
Proof.
  intros Hi Hj Hx He. unfold mat_set; simpl. rewrite decide_True by done.
  rewrite (vec_set_tabulate _ _ (λ p, e' (p / n)%nat (p mod n)%nat));
    [done | by apply flat_index_lt | by rewrite flat_index_div, flat_index_mod |].
  intros p Hp Hne.
  assert (0 < n)%nat by lia.
  apply He.
  - apply Nat.Div0.div_lt_upper_bound. lia.
  - by apply Nat.mod_upper_bound, Nat.neq_0_lt_0.
  - intros [E1 E2]. apply Hne.
    rewrite (Nat.div_mod_eq p n). rewrite E1, E2. lia.
Qed.

End Matrices.

(** ** Conservative advection with full upwinding *)
Module Upwind.
Import HeatAdvectionConservative.


Ltac nat_cases :=
  repeat match goal with
    | |- context [@decide (lt ?x ?y) ?d] => destruct (@decide (lt x y) d)
    | |- context [@decide (@eq nat ?x ?y) ?d] => destruct (@decide (x = y) d)
    | |- context [@decide (and ?P ?Q) ?d] => destruct (@decide (P ∧ Q) d)
    | |- context [@decide (or ?P ?Q) ?d] => destruct (@decide (P ∨ Q) d)
    end.

Ltac simpl_state :=
  cbv beta iota zeta delta
      [set_local_re set_local_ke set_upwind_node set_dtotal_mass_out
       set_total_mass_out set_total_in set_re_blocks set_ke_blocks
       set_solution set_divisions prepareVectorTag prepareMatrixTag
       bind is_jacobian negb];
  cbn [_local_re _local_ke _upwind_node _dtotal_mass_out total_mass_out
       total_in re_blocks ke_blocks solution divisions fst snd].

Ltac open_state s :=
  destruct s as [re0 ke0 up0 dm0 tmo0 tin0 rb0 kb0 sol0 dv0].

Ltac pin_index :=
  repeat match goal with
    | i : nat, n : nat |- _ =>
        assert (i = n) by lia; subst i
    end.

Ltac by_cases :=
  intros; cbn beta; nat_cases; subst; pin_index;
  try lia; try done; try tauto; try reflexivity.

Lemma state_eq re re' ke ke' up up' dm dm' tmo tmo' tin tin' rb rb' kb kb'
    sol sol' dv dv' :
  re = re' → ke = ke' → up = up' → dm = dm' → tmo = tmo' → tin = tin' →
  rb = rb' → kb = kb' → sol = sol' → dv = dv' →
  mkState re ke up dm tmo tin rb kb sol dv
  = mkState re' ke' up' dm' tmo' tin' rb' kb' sol' dv'.
Proof. by intros -> -> -> -> -> -> -> -> -> ->. Qed.

Ltac same_state := unfold steps_to; apply state_eq; try reflexivity.

Section Passes.

Variables (k : params) (a : Assembly).

Abbreviation N := (test_size a).
Abbreviation M := (phi_size a).

Lemma outflux_qp_step G m s n q :
  (n < N)%nat →
  steps_to G (outflux_qp k a n q (after_outflux k a m s n q))
             (after_outflux k a m s n (S q)).
Proof.
  intros Hn. open_state s. unfold outflux_qp, after_outflux, prepared.
  destruct m; simpl_state.
  all: rewrite vec_get_tabulate by done; simpl_state.
  all: rewrite (vec_set_tabulate _ _
    (λ i, if decide (i < n)%nat then rawFlux k a i
          else if decide (i = n) then outflux_upto k a n (S q) else 0));
    [done | by_cases ..].
Qed.

Lemma prepared_after_outflux m s :
  prepared a m s = after_outflux k a m s 0 0.
Proof.
  open_state s. unfold prepared, after_outflux.
  destruct m; simpl_state;
    rewrite resize_tabulate, replicate_tabulate; f_equal;
    apply tabulate_ext; by_cases.
Qed.

Lemma outflux_node_step G m s n :
  (n < N)%nat →
  steps_to G (outflux_node k a n (after_outflux k a m s n 0))
             (after_outflux k a m s (S n) 0).
Proof.
  intros Hn. unfold outflux_node.
  eapply steps_to_bind.
  { apply (for_loop_steps G (outflux_qp k a n) (after_outflux k a m s n)).
    intros q _. by apply outflux_qp_step. }
  open_state s. unfold after_outflux, prepared.
  destruct m; simpl_state.
  all: rewrite vec_get_tabulate by done; simpl_state.
  all: rewrite (vec_set_tabulate _ _
    (λ i, if decide (i < S n)%nat then upwind k a i
          else default false (up0 !! i))); [| by_cases ..].
  all: simpl_state; unfold steps_to; f_equal; apply tabulate_ext; by_cases.
Qed.

Lemma outflux_loop G m s :
  steps_to G (for_loop N (outflux_node k a) (prepared a m s))
             (after_outflux k a m s N 0).
Proof.
  rewrite prepared_after_outflux.
  apply (for_loop_steps G (outflux_node k a) (λ n, after_outflux k a m s n 0)).
  intros n Hn. by apply outflux_node_step.
Qed.

Lemma mass_start m s :
  (let s1 := set_total_in 0 (set_total_mass_out 0 (after_outflux k a m s N 0)) in
   if is_jacobian m then set_dtotal_mass_out (replicate N 0) s1 else s1)
  = after_mass k a m s 0.
Proof.
  open_state s. unfold after_outflux, after_mass, prepared.
  destruct m; simpl_state.
  - f_equal; apply tabulate_ext; by_cases.
  - rewrite mat_zero_tabulate, replicate_tabulate.
    f_equal; first [apply tabulate_ext | apply mat_tabulate_ext]; by_cases.
Qed.

Lemma dMassOut_downwind n : upwind k a n = false → dMassOut k a n = 0.
Proof. unfold dMassOut. by intros ->. Qed.

Lemma dMassOut_upwind_eq n :
  upwind k a n = true → N = M → dMassOut k a n = rawFlux k a n.
Proof. unfold dMassOut. intros -> E. by rewrite decide_True. Qed.

Lemma dMassOut_differ n : N ≠ M → dMassOut k a n = 0.
Proof. unfold dMassOut. intros E. rewrite decide_False by done. by destruct (upwind k a n). Qed.

Lemma mass_out_upto_S n :
  mass_out_upto k a (S n)
  = if upwind k a n then mass_out_upto k a n + rawFlux k a n * _u_nodal a n
    else mass_out_upto k a n.
Proof. done. Qed.

Lemma in_upto_S n :
  in_upto k a (S n)
  = if upwind k a n then in_upto k a n else in_upto k a n - rawFlux k a n.
Proof. done. Qed.

Lemma mass_node_step m s n :
  (n < N)%nat →
  steps_to (may_fault k a m) (mass_node a m n (after_mass k a m s n))
           (after_mass k a m s (S n)).
Proof.
  intros Hn. open_state s. unfold mass_node, after_mass. simpl_state.
  rewrite vec_get_tabulate by done. simpl_state.
  rewrite mass_out_upto_S, in_upto_S.
  destruct (upwind k a n) eqn:Hup.
  - destruct m; simpl_state.
    + rewrite vec_get_tabulate by done. simpl_state.
      rewrite (vec_set_tabulate _ _
        (λ i, if decide (i < S n)%nat
              then (if upwind k a i then rawFlux k a i * _u_nodal a i else rawFlux k a i)
              else rawFlux k a i)); [simpl_state | by_cases; by rewrite ?Hup ..].
      rewrite vec_get_tabulate by done. simpl_state.
      unfold steps_to. f_equal. by_cases; by rewrite ?Hup.
    + destruct (decide (N = M)) as [E|E]; simpl_state.
      * rewrite mat_get_tabulate by lia. simpl_state.
        rewrite vec_get_tabulate by done. simpl_state.
        rewrite (mat_set_tabulate _ _ _
          (λ i j, if decide (i < S n ∧ j = i)%nat then dMassOut k a i else 0));
          [simpl_state | lia | lia | | by_cases].
        2:{ by_cases. rewrite dMassOut_upwind_eq by done. ring. }
        rewrite vec_get_tabulate by done. simpl_state.
        rewrite mat_get_tabulate by lia. simpl_state.
        rewrite (vec_set_tabulate _ _
          (λ i, if decide (i < S n)%nat then dMassOut k a i else 0));
          [simpl_state | done | by_cases; ring | by_cases].
        rewrite vec_get_tabulate by done. simpl_state.
        rewrite (vec_set_tabulate _ _
          (λ i, if decide (i < S n)%nat
                then (if upwind k a i then rawFlux k a i * _u_nodal a i else rawFlux k a i)
                else rawFlux k a i)); [simpl_state | by_cases; by rewrite ?Hup ..].
        rewrite vec_get_tabulate by done. simpl_state.
        unfold steps_to. f_equal. by_cases; by rewrite ?Hup.
      * rewrite vec_get_tabulate by done. simpl_state.
        destruct (decide (n < M)%nat) as [HnM|HnM].
        -- rewrite mat_get_tabulate by lia. simpl_state.
           rewrite (vec_set_tabulate _ _
             (λ i, if decide (i < S n)%nat then dMassOut k a i else 0));
             [simpl_state | done | by_cases; rewrite dMassOut_differ by done; ring
             | by_cases].
           rewrite vec_get_tabulate by done. simpl_state.
           rewrite (vec_set_tabulate _ _
             (λ i, if decide (i < S n)%nat
                   then (if upwind k a i then rawFlux k a i * _u_nodal a i else rawFlux k a i)
                   else rawFlux k a i)); [simpl_state | by_cases; by rewrite ?Hup ..].
           rewrite vec_get_tabulate by done. simpl_state.
           unfold steps_to. f_equal.
           ++ apply mat_tabulate_ext. by_cases; by rewrite dMassOut_differ.
           ++ by_cases; by rewrite ?Hup.
        -- rewrite mat_get_tabulate_ge by lia. simpl_state.
           split; [done | split; [done|]]. intros (Hrange & _).
           specialize (Hrange n Hn Hup). lia.
  - rewrite vec_get_tabulate by done. simpl_state.
    same_state.
    + apply tabulate_ext. by_cases; by rewrite ?Hup.
    + destruct m; simpl_state; [done|].
      apply mat_tabulate_ext. by_cases; by rewrite dMassOut_downwind.
    + destruct m; simpl_state; [done|].
      apply tabulate_ext. by_cases; by rewrite dMassOut_downwind.
    + by_cases.
Qed.

Lemma mass_loop m s :
  steps_to (may_fault k a m)
    (for_loop N (mass_node a m) (after_mass k a m s 0)) (after_mass k a m s N).
Proof.
  apply (for_loop_steps _ (mass_node a m) (after_mass k a m s)).
  intros n Hn. by apply mass_node_step.
Qed.

Lemma downwind_negative n : upwind k a n = false → rawFlux k a n < 0.
Proof.
  unfold upwind. intros H. apply bool_decide_eq_false in H.
  by apply Qcnot_le_lt.
Qed.

Lemma opp_negative_pos (x : Real) : x < 0 → 0 < - x.
Proof. intros H. apply Qclt_minus_iff in H. by rewrite Qcplus_0_l in H. Qed.

Lemma in_upto_nonneg n : 0 ≤ in_upto k a n.
Proof.
  induction n as [|n IH]; [done|]. rewrite in_upto_S.
  destruct (upwind k a n) eqn:Hup; [done|].
  apply Qclt_le_weak. unfold Qcminus.
  apply Qcplus_nonneg_pos; [done|].
  by apply opp_negative_pos, downwind_negative.
Qed.

Lemma in_upto_pos n i :
  (i < n)%nat → upwind k a i = false → 0 < in_upto k a n.
Proof.
  intros Hi Hup. induction n as [|n IH]; [lia|]. rewrite in_upto_S.
  destruct (decide (i = n)) as [->|Hne].
  - rewrite Hup. unfold Qcminus.
    apply Qcplus_nonneg_pos; [apply in_upto_nonneg|].
    by apply opp_negative_pos, downwind_negative.
  - assert (0 < in_upto k a n) as Hpos by (apply IH; lia).
    destruct (upwind k a n) eqn:Hn; [done|].
    unfold Qcminus. apply Qcplus_pos_pos; [done|].
    by apply opp_negative_pos, downwind_negative.
Qed.

Lemma totalIn_nonzero i :
  (i < N)%nat → upwind k a i = false → totalIn k a ≠ 0.
Proof.
  intros Hi Hup E. pose proof (in_upto_pos N i Hi Hup) as Hpos.
  unfold totalIn in E. rewrite E in Hpos. by apply Qclt_not_eq in Hpos.
Qed.

Lemma redistribute_start m s :
  after_mass k a m s N = after_redistribute k a m s 0 0.
Proof.
  open_state s. unfold after_mass, after_redistribute. simpl_state.
  apply state_eq; try reflexivity.
  - apply tabulate_ext. by_cases.
  - destruct m; simpl_state; [done|]. apply mat_tabulate_ext. by_cases.
  - destruct m; simpl_state; [done|]. apply tabulate_ext. by_cases.
  - cbn [count_where]. lia.
Qed.

Lemma divide_nonzero (x y : Real) (s : state) :
  y ≠ 0 → divide x y s = Ok (x / y, set_divisions (S (divisions s)) s).
Proof. intros H. unfold divide. by rewrite decide_False. Qed.

Lemma redistribute_col_step s n c :
  (n < N)%nat → upwind k a n = false → (c < M)%nat →
  steps_to (may_fault k a CALCULATE_JACOBIAN)
    (redistribute_col n c (after_redistribute k a CALCULATE_JACOBIAN s n c))
    (after_redistribute k a CALCULATE_JACOBIAN s n (S c)).
Proof.
  intros Hn Hup Hc. open_state s.
  unfold redistribute_col, after_redistribute. simpl_state.
  rewrite mat_get_tabulate by done. simpl_state.
  rewrite vec_get_tabulate by done. simpl_state.
  destruct (decide (c < N)%nat) as [HcN|HcN].
  - rewrite vec_get_tabulate by done. simpl_state.
    rewrite divide_nonzero by (by apply (totalIn_nonzero n)). simpl_state.
    rewrite (mat_set_tabulate _ _ _
      (λ i j, if decide (i < n ∨ (i = n ∧ j < S c))%nat
              then jacobian_entry k a i j
              else if decide (j = i) then dMassOut k a i else 0));
      [simpl_state | done | done | | by_cases].
    + same_state. lia.
    + by_cases; unfold jacobian_entry; rewrite Hup, ?dMassOut_downwind by done; ring.
  - rewrite vec_get_tabulate_ge by lia. simpl_state.
    split; [done | split; [lia|]]. intros (_ & Hrange & _).
    specialize (Hrange n Hn Hup). lia.
Qed.

Lemma count_downwind_S n :
  count_where (downwind k a) (S n)
  = if upwind k a n then count_where (downwind k a) n
    else S (count_where (downwind k a) n).
Proof. cbn [count_where]. unfold downwind at 1. by destruct (upwind k a n). Qed.

Lemma redistribute_node_step m s n :
  (n < N)%nat →
  steps_to (may_fault k a m)
    (redistribute_node a m n (after_redistribute k a m s n 0))
    (after_redistribute k a m s (S n) 0).
Proof.
  intros Hn. unfold redistribute_node.
  assert (Hget : vec_get (_upwind_node (after_redistribute k a m s n 0)) n
                 = Ok (upwind k a n)).
  { open_state s. unfold after_redistribute. simpl_state.
    by rewrite vec_get_tabulate. }
  rewrite Hget. simpl_state.
  destruct (upwind k a n) eqn:Hup; simpl_state.
  - open_state s. unfold after_redistribute. same_state.
    + apply tabulate_ext. by_cases; unfold residual_value; by rewrite Hup.
    + destruct m; simpl_state; [done|]. apply mat_tabulate_ext.
      by_cases; unfold jacobian_entry; rewrite Hup; by_cases.
    + by rewrite count_downwind_S, Hup.
  - eapply (steps_to_bind _ _ _
      (after_redistribute k a m s n (if is_jacobian m then M else 0%nat))).
    { destruct m; simpl_state; [done|].
      apply (for_loop_steps _ (redistribute_col n)
               (after_redistribute k a CALCULATE_JACOBIAN s n)).
      intros c Hc. by apply redistribute_col_step. }
    open_state s. unfold after_redistribute. simpl_state.
    rewrite vec_get_tabulate by done. simpl_state.
    rewrite divide_nonzero by (by apply (totalIn_nonzero n)). simpl_state.
    rewrite (vec_set_tabulate _ _
      (λ i, if decide (i < S n)%nat then residual_value k a i
            else if upwind k a i then rawFlux k a i * _u_nodal a i
                 else rawFlux k a i));
      [simpl_state | done | by_cases; unfold residual_value; by rewrite Hup
      | by_cases].
    same_state.
    + destruct m; simpl_state; [done|]. apply mat_tabulate_ext. by_cases.
    + rewrite count_downwind_S, Hup. destruct m; simpl_state; lia.
Qed.

Lemma redistribute_loop m s :
  steps_to (may_fault k a m)
    (for_loop N (redistribute_node a m) (after_redistribute k a m s 0 0))
    (after_redistribute k a m s N 0).
Proof.
  apply (for_loop_steps _ (redistribute_node a m)
           (λ n, after_redistribute k a m s n 0)).
  intros n Hn. by apply redistribute_node_step.
Qed.

Lemma diag_entry_step (e : nat → nat → Real) i :
  _has_diag_save_in k = true → (i < N)%nat →
  steps_to (may_fault k a CALCULATE_JACOBIAN)
    (diag_entry (mat_tabulate N M e) i
       (tabulate N (λ j, if decide (j < i)%nat then e j j else 0)))
    (tabulate N (λ j, if decide (j < S i)%nat then e j j else 0)).
Proof.
  intros Hsave Hi. unfold diag_entry.
  destruct (decide (i < M)%nat) as [HiM|HiM].
  - rewrite mat_get_tabulate by done. simpl_state.
    apply steps_to_ok, vec_set_tabulate; by_cases.
  - rewrite mat_get_tabulate_ge by lia. simpl_state.
    split; [done | split; [lia|]]. intros (_ & _ & Hrange).
    specialize (Hrange Hsave). lia.
Qed.

Lemma diag_start :
  replicate N 0
  = tabulate N (λ j, if decide (j < 0)%nat then (0 : Real) else 0).
Proof. rewrite replicate_tabulate. apply tabulate_ext. by_cases. Qed.

Lemma diag_loop (e : nat → nat → Real) :
  _has_diag_save_in k = true →
  steps_to (may_fault k a CALCULATE_JACOBIAN)
    (for_loop N (diag_entry (mat_tabulate N M e)) (replicate N 0))
    (tabulate N (λ i, e i i)).
Proof.
  intros Hsave.
  pose (F := λ n, tabulate N (λ i, if decide (i < n)%nat then e i i else 0)).
  replace (replicate N 0) with (F 0%nat)
    by (unfold F; rewrite replicate_tabulate; apply tabulate_ext; by_cases).
  replace (tabulate N (λ i, e i i)) with (F N)
    by (unfold F; apply tabulate_ext; by_cases).
  apply (for_loop_steps _ _ F). intros i Hi. by apply diag_entry_step.
Qed.

(** The full-upwind pass ends in the store [finished], or, for a Jacobian
    with different test and trial counts, may stop on an index out of
    range. *)
Theorem fullUpwind_steps m s :
  steps_to (may_fault k a m) (fullUpwind k a m s) (finished k a m s).
Proof.
  unfold fullUpwind. cbv zeta.
  eapply steps_to_bind; [apply outflux_loop|].
  rewrite mass_start.
  eapply steps_to_bind; [apply mass_loop|].
  rewrite redistribute_start.
  eapply steps_to_bind; [apply redistribute_loop|].
  unfold finished. destruct m; simpl_state; [done|].
  destruct (_has_diag_save_in k) eqn:Hsave; [|done].
  unfold save_in_diagonal.
  open_state s. unfold after_redistribute, accumulateTaggedLocalMatrix.
  simpl_state. cbn [mat_tabulate mat_m].
  eapply steps_to_bind; [by apply diag_loop|].
  simpl_state. unfold steps_to.
  by rewrite (tabulate_ext N
    (λ i, if decide (i < N ∨ i = N ∧ i < 0)%nat then jacobian_entry k a i i
          else if decide (i = i) then dMassOut k a i else 0)
    (λ i, jacobian_entry k a i i)) by by_cases.
Qed.

(** A residual pass always completes. *)
Lemma fullUpwind_residual s :
  fullUpwind k a CALCULATE_RESIDUAL s = Ok (finished k a CALCULATE_RESIDUAL s).
Proof. apply steps_to_total, (fullUpwind_steps CALCULATE_RESIDUAL). Qed.

(** A Jacobian pass completes when its indices stay in range, as they do
    when the test and trial counts agree, and whenever it completes it ends
    in [finished]. *)
Lemma equal_counts_in_range : N = M → indices_in_range k a.
Proof. intros E. repeat split; intros; lia. Qed.

Lemma fullUpwind_jacobian_in_range s :
  indices_in_range k a →
  fullUpwind k a CALCULATE_JACOBIAN s = Ok (finished k a CALCULATE_JACOBIAN s).
Proof.
  intros Hrange. pose proof (fullUpwind_steps CALCULATE_JACOBIAN s) as H.
  destruct (fullUpwind k a CALCULATE_JACOBIAN s) as [s'|f]; simpl in H.
  - by rewrite H.
  - by destruct H as (_ & _ & H).
Qed.

Lemma fullUpwind_jacobian s :
  N = M →
  fullUpwind k a CALCULATE_JACOBIAN s = Ok (finished k a CALCULATE_JACOBIAN s).
Proof. intros E. by apply fullUpwind_jacobian_in_range, equal_counts_in_range. Qed.

(** With full upwinding selected, the two entry points of the kernel are
    the two passes, whatever the generic loops of the framework do. *)
Lemma computeResidual_full (generic_re : state → result state) s :
  _upwinding k = full →
  computeResidual k a generic_re s = fullUpwind k a CALCULATE_RESIDUAL s.
Proof. unfold computeResidual. by intros ->. Qed.

Lemma computeJacobian_full (generic_ke : state → result state) s :
  _upwinding k = full →
  computeJacobian k a generic_ke s = fullUpwind k a CALCULATE_JACOBIAN s.
Proof. unfold computeJacobian. by intros ->. Qed.

Lemma fullUpwind_jacobian_inv s s' :
  fullUpwind k a CALCULATE_JACOBIAN s = Ok s' →
  s' = finished k a CALCULATE_JACOBIAN s.
Proof.
  intros H. exact (steps_to_inv _ _ _ _ (fullUpwind_steps CALCULATE_JACOBIAN s) H).
Qed.

(** *** The members of the final store *)

Ltac open_finished s :=
  open_state s;
  unfold finished, after_redistribute, accumulateTaggedLocalResidual,
         accumulateTaggedLocalMatrix, save_in_residual;
  simpl_state;
  try destruct (_has_save_in k); try destruct (_has_diag_save_in k);
  simpl_state.

Lemma finished_local_re m s :
  _local_re (finished k a m s) = tabulate N (residual_value k a).
Proof. destruct m; open_finished s; apply tabulate_ext; by_cases. Qed.

Lemma finished_upwind_node m s :
  _upwind_node (finished k a m s) = tabulate N (upwind k a).
Proof. by destruct m; open_finished s. Qed.

Lemma finished_divisions m s :
  divisions (finished k a m s)
  = (divisions s
     + count_where (downwind k a) N * (if is_jacobian m then S M else 1))%nat.
Proof. destruct m; open_finished s; simpl_state; lia. Qed.

Lemma finished_residual_local_ke s :
  _local_ke (finished k a CALCULATE_RESIDUAL s) = _local_ke s.
Proof. by open_finished s. Qed.

Lemma finished_residual_ke_blocks s :
  ke_blocks (finished k a CALCULATE_RESIDUAL s) = ke_blocks s.
Proof. by open_finished s. Qed.

Lemma finished_residual_re_blocks s :
  re_blocks (finished k a CALCULATE_RESIDUAL s)
  = map (λ re, vec_add re (tabulate N (residual_value k a))) (re_blocks s).
Proof.
  rewrite <- (finished_local_re CALCULATE_RESIDUAL s). by open_finished s.
Qed.

Lemma finished_residual_set_local_ke K s :
  finished k a CALCULATE_RESIDUAL (set_local_ke K s)
  = set_local_ke K (finished k a CALCULATE_RESIDUAL s).
Proof. by open_finished s. Qed.

Lemma finished_jacobian_re_blocks s :
  re_blocks (finished k a CALCULATE_JACOBIAN s) = re_blocks s.
Proof. by open_finished s. Qed.

Lemma finished_jacobian_local_ke s :
  _local_ke (finished k a CALCULATE_JACOBIAN s)
  = mat_tabulate N M (jacobian_entry k a).
Proof. open_finished s; apply mat_tabulate_ext; by_cases. Qed.

Lemma finished_jacobian_dtotal s :
  _dtotal_mass_out (finished k a CALCULATE_JACOBIAN s) = tabulate N (dMassOut k a).
Proof. by open_finished s. Qed.

(** *** Sums over the outflow and the inflow nodes *)

Lemma sum_upwind_mass n :
  sum_where (upwind k a) (λ i, rawFlux k a i * _u_nodal a i) n
  = mass_out_upto k a n.
Proof.
  induction n as [|n IH]; [done|]. cbn [sum_where]. rewrite mass_out_upto_S, IH.
  by destruct (upwind k a n).
Qed.

Lemma sum_downwind_outflux n :
  sum_where (downwind k a) (rawFlux k a) n = - in_upto k a n.
Proof.
  induction n as [|n IH]; [by apply Qc_is_canon|].
  cbn [sum_where]. rewrite in_upto_S, IH. unfold downwind at 1.
  destruct (upwind k a n); cbn [negb]; [done | ring].
Qed.

Lemma sum_where_scale (p : nat → bool) (f : nat → Real) (c : Real) n :
  sum_where p (λ i, f i * c) n = sum_where p f n * c.
Proof.
  induction n as [|n IH]; cbn [sum_where]; [ring|].
  rewrite IH. destruct (p n); ring.
Qed.

Lemma in_upto_all_upwind n :
  (∀ i, (i < n)%nat → upwind k a i = true) → in_upto k a n = 0.
Proof.
  induction n as [|n IH]; intros Hall; [done|].
  rewrite in_upto_S, (Hall n) by lia. apply IH. intros i Hi. apply Hall. lia.
Qed.

Lemma count_downwind_all_upwind n :
  (∀ i, (i < n)%nat → upwind k a i = true) →
  count_where (downwind k a) n = 0%nat.
Proof.
  induction n as [|n IH]; intros Hall; [done|].
  rewrite count_downwind_S, (Hall n) by lia. apply IH. intros i Hi. apply Hall. lia.
Qed.

(** *** What the full-upwind pass guarantees *)

(** C1, for exact numbers: for an element with inflow ([totalIn > 0]) the
    residual pass completes, leaves [rawFlux[i] * u_nodal[i]] at every
    outflow node and the redistributed value
    [rawFlux[i] * (totalMassOut / totalIn)] at every inflow node, and with the
    quotient, the products and the sums taken without rounding the sum of
    the former over the outflow nodes is the negative of the sum of the
    latter over the inflow nodes.  The doubles of the source round, and
    there the two sums can differ (see [UpwindRounding]). *)
Theorem full_upwind_conserves_mass s :
  0 < totalIn k a →
  ∃ s', fullUpwind k a CALCULATE_RESIDUAL s = Ok s' ∧
    (∀ i, (i < N)%nat →
       _local_re s' !! i
       = Some (if upwind k a i then rawFlux k a i * _u_nodal a i
               else rawFlux k a i * (totalMassOut k a / totalIn k a))) ∧
    sum_where (upwind k a) (λ i, rawFlux k a i * _u_nodal a i) N
    = - sum_where (downwind k a)
          (λ i, rawFlux k a i * (totalMassOut k a / totalIn k a)) N.
Proof.
  intros Hin. exists (finished k a CALCULATE_RESIDUAL s).
  split; [apply fullUpwind_residual|]. split.
  - intros i Hi. by rewrite finished_local_re, lookup_tabulate.
  - rewrite sum_upwind_mass, sum_where_scale, sum_downwind_outflux.
    fold (totalMassOut k a) (totalIn k a).
    assert (totalIn k a ≠ 0) by (intros E; rewrite E in Hin; by apply Qclt_not_eq in Hin).
    by field.
Qed.

(** C2: the nodes of an element are all outflow nodes exactly when
    [totalIn = 0]; then the residual pass completes without a fault, takes no
    quotient, and leaves the raw outflow value [rawFlux[i] * u_nodal[i]] at
    every node; a Jacobian pass that completes takes no quotient either. *)
Theorem pure_outflow_takes_no_quotient s :
  ((∀ i, (i < N)%nat → upwind k a i = true) ↔ totalIn k a = 0) ∧
  ((∀ i, (i < N)%nat → upwind k a i = true) →
   ∃ s', fullUpwind k a CALCULATE_RESIDUAL s = Ok s' ∧
     divisions s' = divisions s ∧
     (∀ i, (i < N)%nat →
        _local_re s' !! i = Some (rawFlux k a i * _u_nodal a i)) ∧
     (∀ sj, fullUpwind k a CALCULATE_JACOBIAN s = Ok sj →
        divisions sj = divisions s)).
Proof.
  split.
  - split.
    + apply in_upto_all_upwind.
    + intros Hz i Hi. destruct (upwind k a i) eqn:Hup; [done|].
      by destruct (totalIn_nonzero i Hi Hup).
  - intros Hall. exists (finished k a CALCULATE_RESIDUAL s).
    split; [apply fullUpwind_residual|]. repeat split.
    + rewrite finished_divisions, count_downwind_all_upwind by done. lia.
    + intros i Hi. rewrite finished_local_re, lookup_tabulate by done.
      unfold residual_value. by rewrite Hall.
    + intros sj Hj. apply fullUpwind_jacobian_inv in Hj as ->.
      rewrite finished_divisions, count_downwind_all_upwind by done. lia.
Qed.

(** C3: after the pass, node [i] is marked as an outflow (upwind) node
    exactly when its raw nodal outflux, the sum over the quadrature points of
    [JxW * coord * negSpeedQp], is greater than or equal to zero; a zero
    outflux counts as outflow; the Jacobian pass marks the nodes alike. *)
Theorem classification_by_outflux_sign s i :
  (i < N)%nat →
  ∃ s', fullUpwind k a CALCULATE_RESIDUAL s = Ok s' ∧
    (_upwind_node s' !! i = Some true ↔ 0 ≤ rawFlux k a i) ∧
    (_upwind_node s' !! i = Some false ↔ rawFlux k a i < 0) ∧
    (rawFlux k a i = 0 → _upwind_node s' !! i = Some true) ∧
    (∀ sj, fullUpwind k a CALCULATE_JACOBIAN s = Ok sj →
       _upwind_node sj !! i = _upwind_node s' !! i).
Proof.
  intros Hi. exists (finished k a CALCULATE_RESIDUAL s).
  split; [apply fullUpwind_residual|].
  rewrite finished_upwind_node, lookup_tabulate by done. unfold upwind.
  repeat split.
  - intros [= H]. by apply bool_decide_eq_true in H.
  - intros H. f_equal. by apply bool_decide_eq_true.
  - intros [= H]. apply bool_decide_eq_false in H. by apply Qcnot_le_lt.
  - intros H. f_equal. apply bool_decide_eq_false. by apply Qclt_not_le.
  - intros ->. by rewrite bool_decide_eq_true_2.
  - intros sj Hj. apply fullUpwind_jacobian_inv in Hj as ->.
    by rewrite finished_upwind_node, lookup_tabulate.
Qed.

(** C8: in the Jacobian pass, with equal test and trial counts the diagonal
    entry of every outflow node [n] receives [rawFlux[n]], and so does
    [_dtotal_mass_out[n]]; with different counts the diagonal contribution is
    skipped: the pass completes when its indices stay in range, and whenever
    it completes [_dtotal_mass_out] is still zero and the redistribution has
    added zero to every row, so the local Jacobian is the zero matrix. *)
Theorem jacobian_diagonal_needs_equal_counts s :
  (N = M →
   ∃ s', fullUpwind k a CALCULATE_JACOBIAN s = Ok s' ∧
     ∀ n, (n < N)%nat → upwind k a n = true →
       mat_get (_local_ke s') n n = Ok (rawFlux k a n) ∧
       _dtotal_mass_out s' !! n = Some (rawFlux k a n)) ∧
  (N ≠ M →
   (indices_in_range k a →
    ∃ s', fullUpwind k a CALCULATE_JACOBIAN s = Ok s') ∧
   ∀ s', fullUpwind k a CALCULATE_JACOBIAN s = Ok s' →
     _dtotal_mass_out s' = replicate N 0 ∧
     _local_ke s' = mat_zero N M).
Proof.
  split.
  - intros E. exists (finished k a CALCULATE_JACOBIAN s).
    split; [by apply fullUpwind_jacobian|]. intros n Hn Hup.
    rewrite finished_jacobian_local_ke, finished_jacobian_dtotal.
    rewrite mat_get_tabulate, lookup_tabulate by lia.
    unfold jacobian_entry. rewrite Hup, decide_True by done.
    by rewrite dMassOut_upwind_eq.
  - intros E. split.
    { intros Hrange. eexists. by apply fullUpwind_jacobian_in_range. }
    intros s' Hs'. apply fullUpwind_jacobian_inv in Hs' as ->.
    rewrite finished_jacobian_local_ke, finished_jacobian_dtotal. split.
    + rewrite replicate_tabulate. apply tabulate_ext. intros i _.
      by apply dMassOut_differ.
    + rewrite mat_zero_tabulate. apply mat_tabulate_ext. intros i j _ _.
      unfold jacobian_entry. rewrite !dMassOut_differ by done.
      destruct (upwind k a i); [by destruct (decide _)|].
      unfold Qcdiv. ring.
Qed.

(** C10: a residual pass completes, neither reads nor writes the local
    Jacobian matrix (whatever matrix it holds is handed back untouched and
    changes nothing else) and leaves the tagged matrix blocks as they were; a
    Jacobian pass that completes leaves the tagged residual blocks as they
    were, and it completes whenever its indices stay in range, as they do
    when the test and trial counts agree. *)
Theorem passes_keep_to_their_blocks s :
  (∃ s', fullUpwind k a CALCULATE_RESIDUAL s = Ok s' ∧
     _local_ke s' = _local_ke s ∧
     ke_blocks s' = ke_blocks s ∧
     ∀ K, fullUpwind k a CALCULATE_RESIDUAL (set_local_ke K s)
          = Ok (set_local_ke K s')) ∧
  (∀ s', fullUpwind k a CALCULATE_JACOBIAN s = Ok s' →
     re_blocks s' = re_blocks s) ∧
  (indices_in_range k a →
   ∃ s', fullUpwind k a CALCULATE_JACOBIAN s = Ok s') ∧
  (N = M → indices_in_range k a).
Proof.
  split; [|split; [|split]].
  - exists (finished k a CALCULATE_RESIDUAL s).
    split; [apply fullUpwind_residual|]. repeat split.
    + apply finished_residual_local_ke.
    + apply finished_residual_ke_blocks.
    + intros K. by rewrite fullUpwind_residual, finished_residual_set_local_ke.
  - intros s' Hs'. apply fullUpwind_jacobian_inv in Hs' as ->.
    apply finished_jacobian_re_blocks.
  - intros Hrange. eexists. by apply fullUpwind_jacobian_in_range.
  - apply equal_counts_in_range.
Qed.

(** *** Where a Jacobian pass leaves the range of its containers *)

Lemma mass_node_fault s n :
  (n < N)%nat → upwind k a n = true → ¬ (n < M)%nat →
  mass_node a CALCULATE_JACOBIAN n (after_mass k a CALCULATE_JACOBIAN s n)
  = Fault OutOfRange.
Proof.
  intros Hn Hup HnM. open_state s. unfold mass_node, after_mass. simpl_state.
  rewrite vec_get_tabulate by done. simpl_state. rewrite Hup.
  rewrite decide_False by lia. simpl_state.
  rewrite vec_get_tabulate by done. simpl_state.
  by rewrite mat_get_tabulate_ge by lia.
Qed.

Lemma redistribute_col_fault s n c :
  (n < N)%nat → (c < M)%nat → ¬ (c < N)%nat →
  redistribute_col n c (after_redistribute k a CALCULATE_JACOBIAN s n c)
  = Fault OutOfRange.
Proof.
  intros Hn Hc HcN. open_state s.
  unfold redistribute_col, after_redistribute. simpl_state.
  rewrite mat_get_tabulate by done. simpl_state.
  rewrite vec_get_tabulate by done. simpl_state.
  by rewrite vec_get_tabulate_ge by lia.
Qed.

Lemma redistribute_node_fault s n :
  (n < N)%nat → upwind k a n = false → (N < M)%nat →
  ∃ f, redistribute_node a CALCULATE_JACOBIAN n
         (after_redistribute k a CALCULATE_JACOBIAN s n 0) = Fault f.
Proof.
  intros Hn Hup HNM. unfold redistribute_node.
  assert (Hget : vec_get (_upwind_node
                            (after_redistribute k a CALCULATE_JACOBIAN s n 0)) n
                 = Ok (upwind k a n)).
  { open_state s. unfold after_redistribute. simpl_state.
    by rewrite vec_get_tabulate. }
  rewrite Hget, Hup. simpl_state.
  destruct (for_loop M (redistribute_col n)
              (after_redistribute k a CALCULATE_JACOBIAN s n 0))
    as [s'|f] eqn:Hloop; [exfalso | by exists f].
  pose proof (for_loop_ok_steps _ (redistribute_col n)
                (after_redistribute k a CALCULATE_JACOBIAN s n) M s'
                (λ c Hc, redistribute_col_step s n c Hn Hup Hc) Hloop N HNM)
    as Hstep.
  by rewrite redistribute_col_fault in Hstep by lia.
Qed.

Lemma diag_entry_fault (K : nat → nat → Real) i (d : list Real) :
  ¬ (i < M)%nat → diag_entry (mat_tabulate N M K) i d = Fault OutOfRange.
Proof. intros Hi. unfold diag_entry. by rewrite mat_get_tabulate_ge by lia. Qed.

(** A Jacobian pass that completes has kept its indices in range. *)
Lemma fullUpwind_jacobian_range s s' :
  fullUpwind k a CALCULATE_JACOBIAN s = Ok s' → indices_in_range k a.
Proof.
  unfold fullUpwind. cbv zeta. intros Hrun.
  apply bind_ok_inv in Hrun as (s1 & H1 & Hrun).
  apply (steps_to_inv _ _ _ _ (outflux_loop (λ _, False) _ s)) in H1 as ->.
  rewrite mass_start in Hrun.
  apply bind_ok_inv in Hrun as (s2 & H2 & Hrun).
  pose proof (steps_to_inv _ _ _ _ (mass_loop CALCULATE_JACOBIAN s) H2) as ->.
  rewrite redistribute_start in Hrun.
  apply bind_ok_inv in Hrun as (s3 & H3 & Hrun).
  pose proof (steps_to_inv _ _ _ _ (redistribute_loop CALCULATE_JACOBIAN s) H3)
    as ->.
  split; [|split].
  - intros n Hn Hup. destruct (decide (n < M)%nat) as [|HnM]; [done|].
    pose proof (for_loop_ok_steps _ _ (after_mass k a CALCULATE_JACOBIAN s) N _
                  (λ i Hi, mass_node_step CALCULATE_JACOBIAN s i Hi) H2 n Hn)
      as Hstep.
    by rewrite mass_node_fault in Hstep.
  - intros n Hn Hup. destruct (decide (M ≤ N)%nat) as [|HMN]; [done|].
    pose proof (for_loop_ok_steps _ _
                  (λ i, after_redistribute k a CALCULATE_JACOBIAN s i 0) N _
                  (λ i Hi, redistribute_node_step CALCULATE_JACOBIAN s i Hi)
                  H3 n Hn) as Hstep.
    destruct (redistribute_node_fault s n Hn Hup) as [f Hf]; [lia|].
    cbv beta in Hstep. by rewrite Hf in Hstep.
  - intros Hsave. destruct (decide (N ≤ M)%nat) as [|HNM]; [done|].
    exfalso. revert Hrun. simpl_state. rewrite Hsave.
    unfold save_in_diagonal. open_state s.
    unfold after_redistribute, accumulateTaggedLocalMatrix.
    simpl_state. cbn [mat_tabulate mat_m]. rewrite diag_start.
    intros Hrun. apply bind_ok_inv in Hrun as (d & Hd & _).
    pose proof (for_loop_ok_steps _ _ _ N d
                  (λ i Hi, diag_entry_step _ i Hsave Hi) Hd M) as Hstep.
    rewrite diag_entry_fault in Hstep by lia.
    by specialize (Hstep ltac:(lia)).
Qed.

(** *** Further properties of the pass *)

(** X1: no pass, residual or Jacobian, on any element and store, stops on a
    quotient by zero: [total_in] divides only at an inflow node, and an
    element with an inflow node has [total_in > 0]. *)
Theorem no_quotient_by_zero m s :
  fullUpwind k a m s ≠ Fault DivideByZero.
Proof.
  intros E. pose proof (fullUpwind_steps m s) as H. rewrite E in H.
  destruct m; simpl in H; [done | by destruct H].
Qed.

(** X2: the residual pass adds the local residual it has built, entry by
    entry, to every tagged residual block; the local residual has one entry
    per test function. *)
Theorem residual_accumulated_into_tags s :
  ∃ s', fullUpwind k a CALCULATE_RESIDUAL s = Ok s' ∧
    length (_local_re s') = N ∧
    re_blocks s' = map (λ re, vec_add re (_local_re s')) (re_blocks s).
Proof.
  exists (finished k a CALCULATE_RESIDUAL s).
  split; [apply fullUpwind_residual|].
  rewrite finished_residual_re_blocks, finished_local_re.
  by rewrite length_tabulate.
Qed.

(** X3: with equal test and trial counts, the Jacobian pass leaves in the row
    of every inflow node [i] the entry [rawFlux[i] * dMassOut[j] / totalIn]
    at every column [j], where [dMassOut[j]] is [rawFlux[j]] at an outflow
    node and zero at an inflow node. *)
Theorem inflow_rows_of_jacobian s :
  N = M →
  ∃ s', fullUpwind k a CALCULATE_JACOBIAN s = Ok s' ∧
    ∀ i j, (i < N)%nat → (j < N)%nat → upwind k a i = false →
      mat_get (_local_ke s') i j
      = Ok (rawFlux k a i * (if upwind k a j then rawFlux k a j else 0)
            / totalIn k a).
Proof.
  intros E. exists (finished k a CALCULATE_JACOBIAN s).
  split; [by apply fullUpwind_jacobian|]. intros i j Hi Hj Hup.
  rewrite finished_jacobian_local_ke, mat_get_tabulate by lia.
  unfold jacobian_entry, dMassOut. by rewrite Hup, decide_True.
Qed.

(** X5: a Jacobian pass completes exactly when the indices it uses stay in
    range: every outflow node has a diagonal entry, the trial count does not
    exceed the test count when there is an inflow node, and the test count
    does not exceed the trial count when the diagonal is saved. *)
Theorem jacobian_pass_completes_iff s :
  (∃ s', fullUpwind k a CALCULATE_JACOBIAN s = Ok s') ↔ indices_in_range k a.
Proof.
  split.
  - intros [s' Hrun]. by apply (fullUpwind_jacobian_range s s').
  - intros Hrange. eexists. by apply fullUpwind_jacobian_in_range.
Qed.

End Passes.
End Upwind.

(** ** Concrete runs of the full-upwind pass *)
Module UpwindRuns.
Import HeatAdvectionConservative.

Lemma full_upwind_conserves_mass_witness :
  let k := Examples.advection 1 false in
  let a := MoreExamples.quad in
  0 < totalIn k a ∧
  sum_where (upwind k a) (λ i, rawFlux k a i * _u_nodal a i) 4 = Q2Qc 25 ∧
  sum_where (upwind k a) (λ i, rawFlux k a i * _u_nodal a i) 4
  = - sum_where (downwind k a)
        (λ i, rawFlux k a i * (totalMassOut k a / totalIn k a)) 4.
Proof.
  cbv zeta.
  assert (H : 0 < totalIn (Examples.advection 1 false) MoreExamples.quad)
    by qc_eval.
  split; [exact H|]. split; [qc_eval|].
  destruct (Upwind.full_upwind_conserves_mass _ _ Examples.fresh H)
    as (s' & _ & _ & E).
  exact E.
Defined.

Lemma pure_outflow_takes_no_quotient_witness :
  ∃ s', fullUpwind (Examples.advection 0 true) (Examples.line 2 2)
          CALCULATE_RESIDUAL Examples.fresh = Ok s' ∧
        divisions s' = 0%nat.
Proof.
  destruct (proj2 (Upwind.pure_outflow_takes_no_quotient
                     (Examples.advection 0 true) (Examples.line 2 2)
                     Examples.fresh)) as (s' & Hrun & Hdiv & _).
  - intros [|[|i]] Hi; [qc_eval | qc_eval | simpl in Hi; lia].
  - exists s'. by split.
Defined.

Lemma classification_by_outflux_sign_witness :
  ∃ s', fullUpwind (Examples.advection 1 true) (Examples.line 2 2)
          CALCULATE_RESIDUAL Examples.fresh = Ok s' ∧
        (_upwind_node s' !! 1%nat = Some false
         ↔ rawFlux (Examples.advection 1 true) (Examples.line 2 2) 1 < 0).
Proof.
  destruct (Upwind.classification_by_outflux_sign
              (Examples.advection 1 true) (Examples.line 2 2)
              Examples.fresh 1) as (s' & Hrun & _ & Hdown & _).
  - simpl. lia.
  - exists s'. by split.
Defined.

Lemma jacobian_diagonal_needs_equal_counts_witness :
  (∃ s', fullUpwind (Examples.advection 1 true) (Examples.line 2 2)
           CALCULATE_JACOBIAN Examples.fresh = Ok s' ∧
         mat_get (_local_ke s') 0 0
         = Ok (rawFlux (Examples.advection 1 true) (Examples.line 2 2) 0)) ∧
  (∃ s', fullUpwind (Examples.advection 1 false) (Examples.line 2 1)
           CALCULATE_JACOBIAN Examples.fresh = Ok s' ∧
         _local_ke s' = mat_zero 2 1).
Proof.
  split.
  - destruct (proj1 (Upwind.jacobian_diagonal_needs_equal_counts
                       (Examples.advection 1 true) (Examples.line 2 2)
                       Examples.fresh) eq_refl) as (s' & Hrun & Hdiag).
    exists s'. split; [done|]. apply Hdiag; [simpl; lia | qc_eval].
  - destruct (Upwind.jacobian_diagonal_needs_equal_counts
                (Examples.advection 1 false) (Examples.line 2 1)
                Examples.fresh) as [_ Hdiffer].
    destruct Hdiffer as [Hruns Hzero]; [simpl; lia|].
    destruct Hruns as [s' Hrun].
    + repeat split.
      * intros [|[|n]] Hn Hup; simpl in *; [lia | | lia].
        exfalso. revert Hup. qc_eval.
      * intros; simpl; lia.
      * intros Hsave. simpl in Hsave. discriminate.
    + exists s'. split; [done|]. by apply Hzero.
Defined.

Lemma passes_keep_to_their_blocks_witness :
  ∃ s', fullUpwind (Examples.advection 1 true) (Examples.line 2 2)
          CALCULATE_RESIDUAL Examples.fresh = Ok s' ∧
        ke_blocks s' = [mat_zero 2 2].
Proof.
  destruct (proj1 (Upwind.passes_keep_to_their_blocks
                     (Examples.advection 1 true) (Examples.line 2 2)
                     Examples.fresh)) as (s' & Hrun & _ & Hblocks & _).
  exists s'. by split.
Defined.

Lemma inflow_rows_of_jacobian_witness :
  ∃ s', fullUpwind (Examples.advection 1 true) (Examples.line 2 2)
          CALCULATE_JACOBIAN Examples.fresh = Ok s' ∧
        mat_get (_local_ke s') 1 0 = Ok (- 1).
Proof.
  destruct (Upwind.inflow_rows_of_jacobian
              (Examples.advection 1 true) (Examples.line 2 2)
              Examples.fresh eq_refl) as (s' & Hrun & Hrow).
  exists s'. split; [done|].
  rewrite Hrow; [f_equal; qc_eval | simpl; lia | simpl; lia | qc_eval].
Defined.

End UpwindRuns.

(** ** The balance of the residual pass in binary64

    On the four-node element of [Binary64.quad], the same as
    [MoreExamples.quad], the raw outflux of the nodes is -6, -1, 3, 4 and the
    nodal values are 1, 2, 3, 4.  In exact numbers both sums of the balance
    are 25.  In binary64 the quotient 25 / 7 is rounded, and so are its
    products with -6 and -1. *)
Module UpwindRounding.
Import Binary64.

(** C1 as it is stated, in binary64: the pass leaves at every node what the
    formulas of the claim say, computed in binary64; the element has inflow;
    and the sum over the outflow nodes, 25, is not the negative of the sum
    over the inflow nodes, which is the next double above 25. *)
Lemma balance_fails_in_binary64 :
  let k := stream in
  let a := quad in
  (∃ s', fullUpwind_residual k a fresh = Ok s' ∧
     _upwind_node s' = [false; false; true; true] ∧
     _local_re s'
     = map (λ i, if upwind k a i
                 then (rawFlux k a i * _u_nodal a i)%float
                 else (rawFlux k a i * (totalMassOut k a / totalIn k a))%float)
           [0; 1; 2; 3]%nat) ∧
  (0 <? totalIn k a)%float = true ∧
  sum_where (upwind k a) (λ i, (rawFlux k a i * _u_nodal a i)%float) 4
  = 25%float ∧
  sum_where (upwind k a) (λ i, (rawFlux k a i * _u_nodal a i)%float) 4
  ≠ (- sum_where (downwind k a)
         (λ i, (rawFlux k a i * (totalMassOut k a / totalIn k a))%float) 4)%float.
Proof.
  cbv zeta. split; [|split; [|split]].
  - eexists. split; [vm_compute; reflexivity|]. split; vm_compute; reflexivity.
  - vm_compute. reflexivity.
  - vm_compute. reflexivity.
  - intros E.
    apply (f_equal (λ z, PrimFloat.eqb z 25%float)) in E.
    vm_compute in E. discriminate E.
Qed.

End UpwindRounding.

(** ** Heat conduction *)
Module Conduction.
Import HeatConduction.

(** X4: with unit volume fraction, conductivity 2, a temperature gradient
    [1, 0, 0] and a test function gradient [1, 0, 0], the residual integrand
    of the conduction kernel is 2. *)
Theorem conduction_scenario (k : params) (a : Assembly) (i qp : nat) :
  _volfrac k qp = 1 →
  _conductivity k qp = Q2Qc 2 →
  _grad_u a qp = mkVec 1 0 0 →
  _grad_test a i qp = mkVec 1 0 0 →
  computeQpResidual k a i qp = Q2Qc 2.
Proof.
  intros Hv Hk Hu Ht. unfold computeQpResidual, dot, scale.
  rewrite Hv, Hk, Hu, Ht. cbn [vx vy vz]. ring.
Qed.

Lemma conduction_scenario_witness :
  computeQpResidual Examples.conduction (Examples.line 2 2) 1 0 = Q2Qc 2.
Proof.
  by apply (conduction_scenario Examples.conduction (Examples.line 2 2) 1 0).
Defined.

End Conduction.

(** ** Variables a kernel is not coupled to *)

Ltac not_coupled H :=
  repeat (rewrite decide_False;
          [| intros ->; apply H; repeat constructor]);
  reflexivity.

(** C9: for each of the four kernels, [computeQpOffDiagJacobian] returns
    exactly zero for every variable identifier that is not one of the
    kernel's declared coupled variables, at every quadrature point. *)
Theorem offdiag_zero_for_uncoupled_variable :
  (∀ k a i j qp jvar,
     jvar ∉ HeatAdvectionConservative.coupled_vars k →
     HeatAdvectionConservative.computeQpOffDiagJacobian k a i j qp jvar = 0) ∧
  (∀ k a i j qp jvar,
     jvar ∉ ThermalFluidFluxBC.coupled_vars k →
     ThermalFluidFluxBC.computeQpOffDiagJacobian k a i j qp jvar = 0) ∧
  (∀ k a i j qp jvar,
     jvar ∉ HeatConvection.coupled_vars k →
     HeatConvection.computeQpOffDiagJacobian k a i j qp jvar = 0) ∧
  (∀ k a i j qp jvar,
     jvar ∉ HeatConduction.coupled_vars k →
     HeatConduction.computeQpOffDiagJacobian k a i j qp jvar = 0).
Proof.
  repeat split; intros k a i j qp jvar H.
  - unfold HeatAdvectionConservative.computeQpOffDiagJacobian.
    unfold HeatAdvectionConservative.coupled_vars in H. not_coupled H.
  - unfold ThermalFluidFluxBC.computeQpOffDiagJacobian.
    unfold ThermalFluidFluxBC.coupled_vars in H. not_coupled H.
  - unfold HeatConvection.computeQpOffDiagJacobian.
    unfold HeatConvection.coupled_vars in H. not_coupled H.
  - unfold HeatConduction.computeQpOffDiagJacobian.
    unfold HeatConduction.coupled_vars in H. not_coupled H.
Qed.

Lemma offdiag_zero_for_uncoupled_variable_witness :
  HeatConvection.computeQpOffDiagJacobian
    Examples.convection (Examples.line 2 2) 0 0 0 99 = 0.
Proof.
  apply (proj1 (proj2 (proj2 offdiag_zero_for_uncoupled_variable))).
  unfold HeatConvection.coupled_vars. simpl. intros Hin.
  repeat (apply elem_of_cons in Hin as [Hin|Hin]; [discriminate|]).
  by apply elem_of_nil in Hin.
Defined.

(* ================================================================== *)
(** * Part III: further properties of the kernels                      *)
(* ================================================================== *)

(** ** Jacobians as rates of change of the residuals

    A Jacobian entry stands for the rate at which the residual changes when
    the coefficient of the trial function [phi_j] of a variable moves.  The
    residuals are products of the fields they read, so the rate is exact:
    moving a field by [h * phi_j] moves the residual by [h] times the rate.
    The theorems say, kernel by kernel, for which variables the entries the
    code returns are these rates, and for which they are not. *)
Module Rates.
Import Vary.

Lemma Qc_mult_nonneg (x y : Real) : 0 ≤ x → 0 ≤ y → 0 ≤ x * y.
Proof.
  intros Hx Hy. replace 0 with (x * 0) by ring.
  by apply Qcmult_le_mono_nonneg_l.
Qed.

Lemma Qc_square_nonneg (x : Real) : 0 ≤ x * x.
Proof.
  destruct (Qclt_le_dec x 0) as [Hneg|Hpos].
  - replace (x * x) with (- x * - x) by ring.
    assert (0 ≤ - x).
    { apply Qclt_le_weak. apply Qclt_minus_iff in Hneg.
      by rewrite Qcplus_0_l in Hneg. }
    by apply Qc_mult_nonneg.
  - by apply Qc_mult_nonneg.
Qed.

(** Walks down a chain of identifier tests; [clash] refutes a test that
    succeeds against the identifier of another coupling. *)
Ltac identifier_tests clash :=
  repeat match goal with
    | |- context [decide (?x = ?y)] =>
        destruct (decide (x = y)) as [Eq|Ne];
        [ first [ clash Eq | clear Eq ] | first [ congruence | clear Ne ] ]
    end.

Section Advection.
Import HeatAdvectionConservative.

Ltac advection_clash Hlone Eq :=
  first [ by discriminate (Hlone ADensity (eq_sym Eq))
        | by discriminate (Hlone AHeatCap (eq_sym Eq))
        | by discriminate (Hlone AVolFrac (eq_sym Eq))
        | by discriminate (Hlone AUx (eq_sym Eq))
        | by discriminate (Hlone AUy (eq_sym Eq))
        | by discriminate (Hlone AUz (eq_sym Eq)) ].

(** X6: the Jacobians of the advection kernel are the rates of change of its
    residual.  Moving the unknown by [h * phi_j] moves [computeQpResidual] by
    [h] times [computeQpJacobian]; moving one coupled field (density, heat
    capacity, volume fraction or a velocity component) whose identifier no
    other coupled field shares by [h * phi_j] moves it by [h] times
    [computeQpOffDiagJacobian] at that identifier. *)
Theorem advection_jacobians_are_rates
    (k : params) (a : Assembly) (i j qp : nat) (h : Real) :
  computeQpResidual k (with_u a (shift (_u a) (_phi a j) h)) i qp
  = computeQpResidual k a i qp + h * computeQpJacobian k a i j qp ∧
  ∀ c, (∀ c', advection_ident k c' = advection_ident k c → c' = c) →
    computeQpResidual (advection_with k c (shift (advection_value k c) (_phi a j) h))
      a i qp
    = computeQpResidual k a i qp
      + h * computeQpOffDiagJacobian k a i j qp (advection_ident k c).
Proof.
  split.
  - unfold computeQpResidual, computeQpJacobian, negSpeedQp, with_u, shift.
    simpl. ring.
  - intros c Hlone. destruct k.
    unfold computeQpResidual, computeQpOffDiagJacobian, negSpeedQp, dot, _vec, shift.
    destruct c; simpl in *;
      identifier_tests ltac:(fun Eq => advection_clash Hlone Eq); ring.
Qed.

End Advection.

Section FluxBoundary.
Import ThermalFluidFluxBC.

(** X7: on either side of the branch of the flux boundary condition,
    moving the unknown by [h * phi_j] moves [computeQpResidual] by [h] times
    [computeQpJacobian]: the direction of the flux does not depend on the
    unknown, and the inflow side does not read it. *)
Theorem flux_jacobian_is_rate
    (k : params) (a : Assembly) (i j qp : nat) (h : Real) :
  computeQpResidual k (with_u a (shift (_u a) (_phi a j) h)) i qp
  = computeQpResidual k a i qp + h * computeQpJacobian k a i j qp.
Proof.
  unfold computeQpResidual, computeQpJacobian, residual_output, residual_input.
  change (flux_dir k (with_u a (shift (_u a) (_phi a j) h)) qp)
    with (flux_dir k a qp).
  unfold with_u, shift. simpl. destruct (decide _); ring.
Qed.

Lemma flux_dir_with_velocity (k : params) (a : Assembly) (qp c : nat) f :
  flux_dir (flux_with_velocity k c f) a qp
  = flux_dir k a qp
    + (f qp - flux_velocity k c qp) * comp (_normals a qp) c.
Proof.
  destruct k. unfold flux_dir, dot, _vec.
  destruct c as [|[|c]]; simpl; ring.
Qed.

(** X8: moving the velocity component [c] of the flux boundary condition by
    [h * phi_j] moves [computeQpResidual] by [h] times
    [computeQpOffDiagJacobian] at the identifier of the component, when no
    earlier component carries that identifier and the move keeps the flux on
    its side of the branch. *)
Theorem flux_velocity_jacobian_is_rate
    (k : params) (a : Assembly) (i j qp : nat) (h : Real) (c : nat) :
  let k' := flux_with_velocity k c (shift (flux_velocity k c) (_phi a j) h) in
  (c < 3)%nat →
  (∀ c', (c' < c)%nat → vel_var k c' ≠ vel_var k c) →
  (0 < flux_dir k a qp ↔ 0 < flux_dir k' a qp) →
  computeQpResidual k' a i qp
  = computeQpResidual k a i qp
    + h * computeQpOffDiagJacobian k a i j qp (vel_var k c).
Proof.
  intros k' Hc Hfirst Hside.
  assert (Hdir : flux_dir k' a qp
                 = flux_dir k a qp + h * _phi a j qp * comp (_normals a qp) c).
  { unfold k'. rewrite flux_dir_with_velocity. unfold shift. ring. }
  assert (Harm : computeQpOffDiagJacobian k a i j qp (vel_var k c)
                 = offdiag_arm k a i j qp c).
  { unfold computeQpOffDiagJacobian.
    destruct c as [|[|[|c]]]; [| | | lia]; simpl in *.
    - by rewrite decide_True.
    - rewrite decide_False by (intros E; by apply (Hfirst 0%nat); [lia|]).
      by rewrite decide_True.
    - rewrite decide_False by (intros E; by apply (Hfirst 0%nat); [lia|]).
      rewrite decide_False by (intros E; by apply (Hfirst 1%nat); [lia|]).
      by rewrite decide_True. }
  rewrite Harm. unfold computeQpResidual, offdiag_arm, residual_output, residual_input.
  assert (Hfields : _density k' = _density k ∧ _heat_cap k' = _heat_cap k ∧
                    _volfrac k' = _volfrac k ∧ _outside_temp k' = _outside_temp k).
  { unfold k'. destruct k. by destruct c as [|[|c]]. }
  destruct Hfields as (-> & -> & -> & ->). rewrite Hdir in *.
  destruct (decide (0 < flux_dir k a qp)) as [Hpos|Hneg].
  - rewrite decide_True by (by apply Hside). ring.
  - rewrite decide_False by (intros H; by apply Hneg, Hside). ring.
Qed.

Lemma flux_dir_with (k : params) (a : Assembly) (qp : nat) c f :
  flux_dir (flux_with k c f) a qp = flux_dir k a qp.
Proof. destruct k. by destruct c. Qed.

Lemma flux_dir_with_outside_temp (k : params) (a : Assembly) (qp : nat) f :
  flux_dir (flux_with_outside_temp k f) a qp = flux_dir k a qp.
Proof. by destruct k. Qed.

(** X9: [computeQpOffDiagJacobian] of the flux boundary condition has arms
    for the three velocity components only.  At the identifier of the
    density, the heat capacity, the volume fraction or the outside
    temperature (when no velocity component carries it) it returns zero,
    although the residual depends on these fields: moving one of the three
    coefficients by [h * phi_j] moves the residual by [h * phi_j] times the
    residual taken with that coefficient at one, and moving the outside
    temperature moves the residual of the inflow side by [h * phi_j] times
    [test * flux_dir * density * heat_cap * volfrac]. *)
Theorem flux_offdiag_omits_coefficients
    (k : params) (a : Assembly) (i j qp : nat) (h : Real) :
  (∀ c, (∀ v, (v < 3)%nat → vel_var k v ≠ flux_ident k c) →
     computeQpOffDiagJacobian k a i j qp (flux_ident k c) = 0 ∧
     computeQpResidual (flux_with k c (shift (flux_value k c) (_phi a j) h)) a i qp
     = computeQpResidual k a i qp
       + h * (_phi a j qp * computeQpResidual (flux_with k c (λ _, 1)) a i qp)) ∧
  ((∀ v, (v < 3)%nat → vel_var k v ≠ _outside_temp_var k) →
     computeQpOffDiagJacobian k a i j qp (_outside_temp_var k) = 0 ∧
     computeQpResidual
       (flux_with_outside_temp k (shift (_outside_temp k) (_phi a j) h)) a i qp
     = computeQpResidual k a i qp
       + h * (if decide (0 < flux_dir k a qp) then 0
              else _phi a j qp * (_test a i qp * flux_dir k a qp
                                  * _density k qp * _heat_cap k qp * _volfrac k qp))).
Proof.
  split.
  - intros c Hvel. split.
    + unfold computeQpOffDiagJacobian.
      rewrite !decide_False; [done|..]; intros E.
      * by apply (Hvel 2%nat); [lia|].
      * by apply (Hvel 1%nat); [lia|].
      * by apply (Hvel 0%nat); [lia|].
    + unfold computeQpResidual. rewrite !flux_dir_with.
      unfold residual_output, residual_input. rewrite !flux_dir_with.
      destruct k. unfold shift.
      destruct c; simpl; destruct (decide _); ring.
  - intros Hvel. split.
    + unfold computeQpOffDiagJacobian.
      rewrite !decide_False; [done|..]; intros E.
      * by apply (Hvel 2%nat); [lia|].
      * by apply (Hvel 1%nat); [lia|].
      * by apply (Hvel 0%nat); [lia|].
    + unfold computeQpResidual. rewrite flux_dir_with_outside_temp.
      unfold residual_output, residual_input. rewrite flux_dir_with_outside_temp.
      destruct k. unfold shift. simpl. destruct (decide _); ring.
Qed.

End FluxBoundary.

Section Convection.
Import HeatConvection.

Ltac convection_clash Hlone Eq :=
  first [ by discriminate (Hlone VOtherTemp (eq_sym Eq))
        | by discriminate (Hlone VHs (eq_sym Eq))
        | by discriminate (Hlone VVolFrac (eq_sym Eq))
        | by discriminate (Hlone VSpecArea (eq_sym Eq)) ].

(** X10: the Jacobians of the convection kernel are the rates of change of
    its residual: for the unknown with [computeQpJacobian], and for the
    other temperature, the transfer coefficient, the volume fraction and the
    specific area (each under an identifier of its own) with
    [computeQpOffDiagJacobian]. *)
Theorem convection_jacobians_are_rates
    (k : params) (a : Assembly) (i j qp : nat) (h : Real) :
  computeQpResidual k (with_u a (shift (_u a) (_phi a j) h)) i qp
  = computeQpResidual k a i qp + h * computeQpJacobian k a i j qp ∧
  ∀ c, (∀ c', convection_ident k c' = convection_ident k c → c' = c) →
    computeQpResidual
      (convection_with k c (shift (convection_value k c) (_phi a j) h)) a i qp
    = computeQpResidual k a i qp
      + h * computeQpOffDiagJacobian k a i j qp (convection_ident k c).
Proof.
  split.
  - unfold computeQpResidual, computeQpJacobian, with_u, shift. simpl. ring.
  - intros c Hlone. destruct k.
    unfold computeQpResidual, computeQpOffDiagJacobian, shift.
    destruct c; simpl in *;
      identifier_tests ltac:(fun Eq => convection_clash Hlone Eq); ring.
Qed.

(** X11: the convection kernel exchanges heat between two temperatures: with
    the unknown and the other temperature swapped the residual changes its
    sign, the off-diagonal entry for the other temperature is the negative
    of the diagonal entry, and where the two temperatures agree the residual
    and every off-diagonal entry but that one are zero. *)
Theorem convection_exchange_balance
    (k : params) (a : Assembly) (i j qp : nat) :
  computeQpResidual (convection_with k VOtherTemp (_u a))
                    (with_u a (_other_temp k)) i qp
  = - computeQpResidual k a i qp ∧
  computeQpOffDiagJacobian k a i j qp (_other_temp_var k)
  = - computeQpJacobian k a i j qp ∧
  (_u a qp = _other_temp k qp →
   computeQpResidual k a i qp = 0 ∧
   ∀ jvar, jvar ≠ _other_temp_var k →
           computeQpOffDiagJacobian k a i j qp jvar = 0).
Proof.
  split; [|split; [|intros Hrest; split]].
  - destruct k. unfold computeQpResidual, with_u. simpl. ring.
  - unfold computeQpOffDiagJacobian, computeQpJacobian.
    rewrite decide_True by done. ring.
  - unfold computeQpResidual. rewrite Hrest. ring.
  - intros jvar Hne. unfold computeQpOffDiagJacobian.
    rewrite decide_False by done. rewrite Hrest.
    repeat (destruct (decide _)); ring.
Qed.

End Convection.

Section Conduction.
Import HeatConduction.

Ltac conduction_clash Hlone Eq :=
  first [ by discriminate (Hlone DConductivity (eq_sym Eq))
        | by discriminate (Hlone DVolFrac (eq_sym Eq)) ].

(** X12: the Jacobians of the conduction kernel are the rates of change of
    its residual: moving the gradient of the unknown by [h * grad_phi_j]
    moves [computeQpResidual] by [h] times [computeQpJacobian], and moving
    the conductivity or the volume fraction (each under an identifier of its
    own) by [h * phi_j] moves it by [h] times [computeQpOffDiagJacobian]. *)
Theorem conduction_jacobians_are_rates
    (k : params) (a : Assembly) (i j qp : nat) (h : Real) :
  computeQpResidual k (with_grad_u a (vshift (_grad_u a) (_grad_phi a j) h)) i qp
  = computeQpResidual k a i qp + h * computeQpJacobian k a i j qp ∧
  ∀ c, (∀ c', conduction_ident k c' = conduction_ident k c → c' = c) →
    computeQpResidual
      (conduction_with k c (shift (conduction_value k c) (_phi a j) h)) a i qp
    = computeQpResidual k a i qp
      + h * computeQpOffDiagJacobian k a i j qp (conduction_ident k c).
Proof.
  split.
  - unfold computeQpResidual, computeQpJacobian, with_grad_u, vshift, dot, scale.
    simpl. ring.
  - intros c Hlone. destruct k.
    unfold computeQpResidual, computeQpOffDiagJacobian, shift, dot, scale.
    destruct c; simpl in *;
      identifier_tests ltac:(fun Eq => conduction_clash Hlone Eq); ring.
Qed.

(** X13: when the test and the trial functions have the same gradients at a
    quadrature point, [computeQpJacobian] of the conduction kernel is
    symmetric in its two indices there, and its diagonal entries are not
    negative when neither the volume fraction nor the conductivity is. *)
Theorem conduction_jacobian_symmetric_nonnegative
    (k : params) (a : Assembly) (i j qp : nat) :
  (∀ n, _grad_test a n qp = _grad_phi a n qp) →
  computeQpJacobian k a i j qp = computeQpJacobian k a j i qp ∧
  (0 ≤ _volfrac k qp → 0 ≤ _conductivity k qp →
   0 ≤ computeQpJacobian k a i i qp).
Proof.
  intros Hgalerkin. unfold computeQpJacobian, dot, scale. split.
  - rewrite <- !Hgalerkin. simpl. ring.
  - intros Hv Hk. rewrite <- Hgalerkin. simpl.
    set (g := _grad_test a i qp).
    replace (_volfrac k qp * _conductivity k qp * vx g * vx g
             + _volfrac k qp * _conductivity k qp * vy g * vy g
             + _volfrac k qp * _conductivity k qp * vz g * vz g)
      with (_volfrac k qp * _conductivity k qp
            * (vx g * vx g + vy g * vy g + vz g * vz g)) by ring.
    apply Qc_mult_nonneg; [by apply Qc_mult_nonneg|].
    repeat apply Qcplus_nonneg_nonneg; apply Qc_square_nonneg.
Qed.

End Conduction.

Section Source.
Import HeatSource.

(** X14: the residual of the source kernel does not read the unknown, so
    the zero of [computeQpJacobian] is its rate of change; moving the coupled
    source by [h * phi_j] moves the residual by [h] times
    [computeQpOffDiagJacobian] at the identifier of the source. *)
Theorem source_jacobians_are_rates
    (k : params) (a : Assembly) (i j qp : nat) (h : Real) :
  computeQpResidual k (with_u a (shift (_u a) (_phi a j) h)) i qp
  = computeQpResidual k a i qp + h * computeQpJacobian k a i j qp ∧
  computeQpResidual
    (mkParams (shift (_coupled_source k) (_phi a j) h) (_coupled_source_var k))
    a i qp
  = computeQpResidual k a i qp
    + h * computeQpOffDiagJacobian k a i j qp (_coupled_source_var k).
Proof.
  unfold computeQpResidual, computeQpJacobian, computeQpOffDiagJacobian, shift.
  rewrite decide_True by done. simpl. split; ring.
Qed.

End Source.

Section Accumulation.
Import HeatAccumulation.

Ltac accumulation_clash Hlone Eq :=
  first [ by discriminate (Hlone CDensity (eq_sym Eq))
        | by discriminate (Hlone CHeatCap (eq_sym Eq))
        | by discriminate (Hlone CVolFrac (eq_sym Eq)) ].

(** X15: when the base class returns the coefficient times the test function
    times the time derivative of the unknown, the off-diagonal Jacobian of
    the accumulation kernel is the rate of change of its residual: moving the
    density, the heat capacity or the volume fraction (under an identifier of
    its own) by [h * phi_j] moves [computeQpResidual] by [h] times
    [computeQpOffDiagJacobian] at that identifier. *)
Theorem accumulation_offdiag_are_rates
    (base : Real → params → Assembly → nat → nat → Real)
    (k : params) (a : Assembly) (i j qp : nat) (h : Real)
    (c : accumulation_coupling) :
  (∀ coef k', base coef k' a i qp = coef * (_test a i qp * _u_dot k' qp)) →
  (∀ c', accumulation_ident k c' = accumulation_ident k c → c' = c) →
  computeQpResidual base
    (accumulation_with k c (shift (accumulation_value k c) (_phi a j) h)) a i qp
  = computeQpResidual base k a i qp
    + h * computeQpOffDiagJacobian k a i j qp (accumulation_ident k c).
Proof.
  intros Hbase Hlone. destruct k.
  unfold computeQpResidual, computeQpOffDiagJacobian, shift. rewrite !Hbase.
  destruct c; simpl in *;
    identifier_tests ltac:(fun Eq => accumulation_clash Hlone Eq); ring.
Qed.

End Accumulation.

(** X16: [computeQpOffDiagJacobian] of the source kernel and of the
    accumulation kernel returns zero for every identifier that is not one of
    the coupled variables of the kernel. *)
Theorem offdiag_zero_for_uncoupled_source_or_storage :
  (∀ k a i j qp jvar,
     jvar ≠ HeatSource._coupled_source_var k →
     HeatSource.computeQpOffDiagJacobian k a i j qp jvar = 0) ∧
  (∀ k a i j qp jvar,
     jvar ∉ HeatAccumulation.coupled_vars k →
     HeatAccumulation.computeQpOffDiagJacobian k a i j qp jvar = 0).
Proof.
  split; intros k a i j qp jvar H.
  - unfold HeatSource.computeQpOffDiagJacobian. by rewrite decide_False.
  - unfold HeatAccumulation.computeQpOffDiagJacobian.
    unfold HeatAccumulation.coupled_vars in H.
    repeat (rewrite decide_False; [| intros ->; apply H; repeat constructor]).
    reflexivity.
Qed.

End Rates.

(** ** More on the full-upwind pass *)
Module UpwindLaws.
Import HeatAdvectionConservative Vary Upwind.

(** *** What [add_vector] leaves at one global index *)


(** [add_vector] read at one global index. *)
Lemma add_vector_gather (v : list Real) dofs (sol : gmap nat Real) d :
  default 0 (add_vector v dofs sol !! d) = default 0 (sol !! d) + gather d dofs v.
Proof.
  unfold add_vector. revert v sol.
  induction dofs as [|d' dofs IH]; intros [|x v] sol; cbn [zip zip_with foldl gather];
    try ring.
  rewrite IH. destruct (decide (d' = d)) as [->|Hne].
  - rewrite lookup_insert_eq. cbn [from_option id]. ring.
  - rewrite lookup_insert_ne by done. ring.
Qed.

Lemma save_in_gather (v : list Real) (vars : list (list nat))
    (sol : gmap nat Real) d :
  default 0 (foldl (λ sol dofs, add_vector v dofs sol) sol vars !! d)
  = default 0 (sol !! d) + sum_list ((λ dofs, gather d dofs v) <$> vars).
Proof.
  revert sol. induction vars as [|dofs vars IH]; intros sol.
  - unfold sum_list. simpl. ring.
  - rewrite fmap_cons. cbn [foldl]. rewrite IH, add_vector_gather.
    unfold sum_list. cbn [foldr]. ring.
Qed.


Section Passes.

Variables (k : params) (a : Assembly).

Abbreviation N := (test_size a).
Abbreviation M := (phi_size a).


(** *** An element without outflow *)

Lemma mass_out_all_downwind n :
  (∀ i, (i < n)%nat → upwind k a i = false) → mass_out_upto k a n = 0.
Proof.
  induction n as [|n IH]; intros Hall; [done|].
  rewrite mass_out_upto_S, (Hall n) by lia. apply IH. intros i Hi. apply Hall. lia.
Qed.

Lemma count_downwind_all_downwind n :
  (∀ i, (i < n)%nat → upwind k a i = false) →
  count_where (downwind k a) n = n.
Proof.
  induction n as [|n IH]; intros Hall; [done|].
  rewrite count_downwind_S, (Hall n) by lia. f_equal. apply IH.
  intros i Hi. apply Hall. lia.
Qed.

(** X18: when every node of the element is an inflow node nothing flows out,
    so the residual pass, after one quotient per node, leaves a zero residual
    at every node, and with equal test and trial counts the Jacobian pass
    leaves the zero matrix. *)
Theorem pure_inflow_contributes_nothing s :
  (∀ i, (i < N)%nat → upwind k a i = false) →
  ∃ s', fullUpwind k a CALCULATE_RESIDUAL s = Ok s' ∧
    (∀ i, (i < N)%nat → _local_re s' !! i = Some 0) ∧
    divisions s' = (divisions s + N)%nat ∧
    (N = M →
     ∃ sj, fullUpwind k a CALCULATE_JACOBIAN s = Ok sj ∧
           _local_ke sj = mat_zero N M).
Proof.
  intros Hall. exists (finished k a CALCULATE_RESIDUAL s).
  split; [apply fullUpwind_residual|]. split; [|split].
  - intros i Hi. rewrite finished_local_re, lookup_tabulate by done.
    unfold residual_value, totalMassOut.
    rewrite (Hall i Hi), (mass_out_all_downwind N Hall). f_equal.
    unfold Qcdiv. ring.
  - rewrite finished_divisions, count_downwind_all_downwind by done.
    cbn [is_jacobian]. lia.
  - intros E. exists (finished k a CALCULATE_JACOBIAN s).
    split; [by apply fullUpwind_jacobian|].
    rewrite finished_jacobian_local_ke, mat_zero_tabulate.
    apply mat_tabulate_ext. intros i j Hi Hj.
    unfold jacobian_entry. rewrite (Hall i Hi).
    rewrite dMassOut_downwind by (apply Hall; lia). unfold Qcdiv. ring.
Qed.

(** *** The Jacobian as the rate of change of the residual *)

Lemma rawFlux_nudge j h i :
  rawFlux k (nudge_nodal a j h) i = rawFlux k a i.
Proof.
  unfold rawFlux. change (n_points (nudge_nodal a j h)) with (n_points a).
  induction (n_points a) as [|q IH]; [done|].
  cbn [outflux_upto]. by rewrite IH.
Qed.

Lemma upwind_nudge j h i : upwind k (nudge_nodal a j h) i = upwind k a i.
Proof. unfold upwind. by rewrite rawFlux_nudge. Qed.

Lemma in_upto_nudge j h n :
  in_upto k (nudge_nodal a j h) n = in_upto k a n.
Proof.
  induction n as [|n IH]; [done|].
  by rewrite !in_upto_S, IH, upwind_nudge, rawFlux_nudge.
Qed.

Lemma mass_out_upto_nudge j h n :
  mass_out_upto k (nudge_nodal a j h) n
  = mass_out_upto k a n
    + (if decide (j < n)%nat
       then (if upwind k a j then rawFlux k a j * h else 0) else 0).
Proof.
  induction n as [|n IH]; [by_cases; ring|].
  rewrite !mass_out_upto_S, IH, upwind_nudge, rawFlux_nudge.
  unfold nudge_nodal, with_u_nodal. cbn [_u_nodal].
  destruct (upwind k a n) eqn:Hup; by_cases; rewrite ?Hup; try ring.
  all: destruct (upwind k a j); ring.
Qed.

Lemma residual_value_nudge j h i :
  N = M → (j < N)%nat →
  residual_value k (nudge_nodal a j h) i
  = residual_value k a i + h * jacobian_entry k a i j.
Proof.
  intros E Hj. unfold residual_value, jacobian_entry, totalMassOut, totalIn.
  change (test_size (nudge_nodal a j h)) with N.
  rewrite upwind_nudge, rawFlux_nudge, in_upto_nudge, mass_out_upto_nudge.
  rewrite decide_True by done.
  destruct (upwind k a i) eqn:Hup.
  - unfold nudge_nodal, with_u_nodal. cbn [_u_nodal].
    destruct (decide (i = j)) as [->|Hne].
    + rewrite decide_True by done. rewrite dMassOut_upwind_eq by done. ring.
    + rewrite decide_False by done. ring.
  - unfold dMassOut. destruct (upwind k a j).
    + rewrite decide_True by done. unfold Qcdiv. ring.
    + unfold Qcdiv. ring.
Qed.

(** X19: with equal test and trial counts the Jacobian pass builds the exact
    rate of change of the residual pass: moving the nodal value of node [j]
    by [h] moves the residual of every node [i] by [h] times the entry
    [(i, j)] of the local Jacobian. *)
Theorem upwind_jacobian_is_rate s j h :
  N = M → (j < N)%nat →
  ∃ sr sr' sj,
    fullUpwind k a CALCULATE_RESIDUAL s = Ok sr ∧
    fullUpwind k (nudge_nodal a j h) CALCULATE_RESIDUAL s = Ok sr' ∧
    fullUpwind k a CALCULATE_JACOBIAN s = Ok sj ∧
    ∀ i, (i < N)%nat →
      ∃ r kij, _local_re sr !! i = Some r ∧
               mat_get (_local_ke sj) i j = Ok kij ∧
               _local_re sr' !! i = Some (r + h * kij).
Proof.
  intros E Hj.
  exists (finished k a CALCULATE_RESIDUAL s),
         (finished k (nudge_nodal a j h) CALCULATE_RESIDUAL s),
         (finished k a CALCULATE_JACOBIAN s).
  split; [apply fullUpwind_residual|]. split; [apply fullUpwind_residual|].
  split; [by apply fullUpwind_jacobian|]. intros i Hi.
  exists (residual_value k a i), (jacobian_entry k a i j).
  rewrite !finished_local_re, finished_jacobian_local_ke.
  change (test_size (nudge_nodal a j h)) with N.
  rewrite !lookup_tabulate, mat_get_tabulate by lia.
  by rewrite residual_value_nudge.
Qed.


(** *** Scratch members *)

(** X20: what a pass leaves in the scratch members of the kernel does not
    depend on what they held before: two residual passes from any two stores
    end with the same local residual and the same node classes, and two
    Jacobian passes that complete end with the same local Jacobian and the
    same [_dtotal_mass_out], and with the local residual of a residual
    pass. *)
Theorem scratch_is_rebuilt s1 s2 :
  (∃ r1 r2, fullUpwind k a CALCULATE_RESIDUAL s1 = Ok r1 ∧
            fullUpwind k a CALCULATE_RESIDUAL s2 = Ok r2 ∧
            _local_re r1 = _local_re r2 ∧
            _upwind_node r1 = _upwind_node r2 ∧
            ∀ j1 j2, fullUpwind k a CALCULATE_JACOBIAN s1 = Ok j1 →
                     fullUpwind k a CALCULATE_JACOBIAN s2 = Ok j2 →
                     _local_ke j1 = _local_ke j2 ∧
                     _dtotal_mass_out j1 = _dtotal_mass_out j2 ∧
                     _upwind_node j1 = _upwind_node r1 ∧
                     _local_re j1 = _local_re r1).
Proof.
  exists (finished k a CALCULATE_RESIDUAL s1), (finished k a CALCULATE_RESIDUAL s2).
  split; [apply fullUpwind_residual|]. split; [apply fullUpwind_residual|].
  rewrite !finished_local_re, !finished_upwind_node. split; [done|]. split; [done|].
  intros j1 j2 H1 H2.
  apply fullUpwind_jacobian_inv in H1 as ->. apply fullUpwind_jacobian_inv in H2 as ->.
  by rewrite !finished_jacobian_local_ke, !finished_jacobian_dtotal,
       finished_local_re, finished_upwind_node.
Qed.

(** *** The save-in writes *)

Lemma finished_residual_solution s :
  solution (finished k a CALCULATE_RESIDUAL s)
  = if _has_save_in k
    then foldl (λ sol dofs,
                  add_vector (_local_re (finished k a CALCULATE_RESIDUAL s)) dofs sol)
               (solution s) (_save_in k)
    else solution s.
Proof.
  open_state s.
  unfold finished, after_redistribute, accumulateTaggedLocalResidual,
         save_in_residual.
  simpl_state. by destruct (_has_save_in k).
Qed.

Lemma finished_jacobian_solution s :
  solution (finished k a CALCULATE_JACOBIAN s)
  = if _has_diag_save_in k
    then foldl (λ sol dofs,
                  add_vector (tabulate N (λ i, jacobian_entry k a i i)) dofs sol)
               (solution s) (_diag_save_in k)
    else solution s.
Proof.
  open_state s.
  unfold finished, after_redistribute, accumulateTaggedLocalMatrix.
  simpl_state. by destruct (_has_diag_save_in k).
Qed.

(** X21: the save-in write of the residual pass is switched by [_has_save_in]
    alone.  Switched off, the solution vector of the save-in variables is
    left as it was, whatever the list of save-in variables holds.  Switched
    on, every global index receives, once for every save-in variable, the
    entries of the local residual whose degree of freedom of that variable is
    this index; an index that is no degree of freedom keeps its value. *)
Theorem save_in_receives_local_residual s :
  ∃ s', fullUpwind k a CALCULATE_RESIDUAL s = Ok s' ∧
    (_has_save_in k = false → solution s' = solution s) ∧
    (_has_save_in k = true →
     ∀ d, default 0 (solution s' !! d)
          = default 0 (solution s !! d)
            + sum_list ((λ dofs, gather d dofs (_local_re s')) <$> _save_in k)).
Proof.
  exists (finished k a CALCULATE_RESIDUAL s).
  split; [apply fullUpwind_residual|].
  rewrite finished_residual_solution. split; intros ->; [done|].
  intros d. apply save_in_gather.
Qed.

(** X22: the diagonal save-in write of the Jacobian pass is switched by
    [_has_diag_save_in] alone.  A pass that completes with the switch off
    leaves the solution vector as it was; with the switch on, the vector it
    adds to every diagonal save-in variable holds the diagonal of the local
    Jacobian, one entry per test function. *)
Theorem diag_save_in_receives_diagonal s sj :
  fullUpwind k a CALCULATE_JACOBIAN s = Ok sj →
  (_has_diag_save_in k = false → solution sj = solution s) ∧
  (_has_diag_save_in k = true →
   ∃ diag, length diag = N ∧
     (∀ i, (i < N)%nat →
        ∃ x, mat_get (_local_ke sj) i i = Ok x ∧ diag !! i = Some x) ∧
     ∀ d, default 0 (solution sj !! d)
          = default 0 (solution s !! d)
            + sum_list ((λ dofs, gather d dofs diag) <$> _diag_save_in k)).
Proof.
  intros Hrun. pose proof (fullUpwind_jacobian_range k a s sj Hrun) as (_ & _ & Hdiag).
  apply fullUpwind_jacobian_inv in Hrun as ->.
  rewrite finished_jacobian_solution. split; intros Hsave; rewrite Hsave; [done|].
  exists (tabulate N (λ i, jacobian_entry k a i i)).
  split; [apply length_tabulate|]. split.
  - intros i Hi. exists (jacobian_entry k a i i).
    rewrite finished_jacobian_local_ke, lookup_tabulate by done.
    specialize (Hdiag Hsave). by rewrite mat_get_tabulate by lia.
  - intros d. apply save_in_gather.
Qed.

(** *** Signs *)

Lemma mass_out_upto_nonneg n :
  (∀ i, (i < n)%nat → upwind k a i = true → 0 ≤ _u_nodal a i) →
  0 ≤ mass_out_upto k a n.
Proof.
  induction n as [|n IH]; intros Hu; [done|].
  rewrite mass_out_upto_S.
  assert (0 ≤ mass_out_upto k a n) as Hn by (apply IH; intros; apply Hu; [lia|done]).
  destruct (upwind k a n) eqn:Hup; [|done].
  replace 0 with (0 + 0) by ring. apply Qcplus_le_compat; [done|].
  apply Qcmult_nonneg_nonneg; [|by apply Hu; [lia|]].
  unfold upwind in Hup. by apply bool_decide_eq_true in Hup.
Qed.

(** X23: when the nodal values of the outflow nodes are not negative, the
    residual pass leaves a residual that is not negative at every outflow
    node and not positive at every inflow node. *)
Theorem residual_signs s :
  (∀ i, (i < N)%nat → upwind k a i = true → 0 ≤ _u_nodal a i) →
  ∃ s', fullUpwind k a CALCULATE_RESIDUAL s = Ok s' ∧
    ∀ i r, _local_re s' !! i = Some r →
      (_upwind_node s' !! i = Some true → 0 ≤ r) ∧
      (_upwind_node s' !! i = Some false → r ≤ 0).
Proof.
  intros Hu. exists (finished k a CALCULATE_RESIDUAL s).
  split; [apply fullUpwind_residual|]. intros i r.
  rewrite finished_local_re, finished_upwind_node. intros Hr.
  assert (i < N)%nat as Hi.
  { apply lookup_lt_Some in Hr. by rewrite length_tabulate in Hr. }
  rewrite lookup_tabulate in Hr by done. injection Hr as <-.
  rewrite lookup_tabulate by done. unfold residual_value.
  split; intros [= Hup]; rewrite Hup.
  - apply Qcmult_nonneg_nonneg; [|by apply Hu].
    unfold upwind in Hup. by apply bool_decide_eq_true in Hup.
  - pose proof (downwind_negative k a i Hup) as Hneg.
    pose proof (in_upto_pos k a N i Hi Hup) as Hpos.
    pose proof (mass_out_upto_nonneg N Hu) as Hout.
    fold (totalIn k a) in Hpos. fold (totalMassOut k a) in Hout.
    assert (0 ≤ totalMassOut k a / totalIn k a) as Hq.
    { unfold Qcdiv. apply Qcmult_nonneg_nonneg; [done|].
      apply Qclt_le_weak. by apply Qcinv_pos. }
    replace 0 with (0 * (totalMassOut k a / totalIn k a)) by ring.
    apply Qcmult_le_mono_nonneg_r; [done|]. by apply Qclt_le_weak.
Qed.


(** *** The velocity reversed *)

Lemma negSpeedQp_reverse i qp :
  negSpeedQp (advection_reverse k) a i qp = - negSpeedQp k a i qp.
Proof. destruct k. unfold negSpeedQp, dot, _vec. simpl. ring. Qed.

Lemma rawFlux_reverse i :
  rawFlux (advection_reverse k) a i = - rawFlux k a i.
Proof.
  unfold rawFlux. induction (n_points a) as [|q IH]; cbn [outflux_upto]; [ring|].
  rewrite IH, negSpeedQp_reverse. ring.
Qed.

(** X25: with the velocity reversed the raw outflux of every node changes its
    sign, so the residual pass takes a node of non-zero outflux to the other
    class, while a node of zero outflux is an outflow node for both
    directions of the velocity. *)
Theorem reversed_velocity_swaps_classes s i :
  (i < N)%nat →
  ∃ s1 s2 b,
    fullUpwind k a CALCULATE_RESIDUAL s = Ok s1 ∧
    fullUpwind (advection_reverse k) a CALCULATE_RESIDUAL s = Ok s2 ∧
    _upwind_node s1 !! i = Some b ∧
    (rawFlux k a i ≠ 0 → _upwind_node s2 !! i = Some (negb b)) ∧
    (rawFlux k a i = 0 → b = true ∧ _upwind_node s2 !! i = Some true).
Proof.
  intros Hi.
  exists (finished k a CALCULATE_RESIDUAL s),
         (finished (advection_reverse k) a CALCULATE_RESIDUAL s), (upwind k a i).
  split; [apply fullUpwind_residual|]. split; [apply fullUpwind_residual|].
  rewrite !finished_upwind_node, !lookup_tabulate by done.
  split; [done|]. unfold upwind. rewrite rawFlux_reverse. split.
  - intros Hne. f_equal.
    destruct (Qclt_le_dec (rawFlux k a i) 0) as [Hneg|Hpos].
    + rewrite (bool_decide_eq_false_2 (0 ≤ rawFlux k a i)) by by apply Qclt_not_le.
      apply bool_decide_eq_true_2. apply Qclt_le_weak.
      apply Qclt_minus_iff in Hneg. by rewrite Qcplus_0_l in Hneg.
    + rewrite (bool_decide_eq_true_2 (0 ≤ rawFlux k a i)) by done.
      apply bool_decide_eq_false_2. intros Hle.
      apply Qcopp_le_compat in Hle. rewrite Qcopp_involutive in Hle.
      apply Hne. by apply Qcle_antisym.
  - intros ->. split; [done | by f_equal].
Qed.

End Passes.
End UpwindLaws.

(** ** Concrete instances of the further properties *)
Module MoreRuns.
Import Vary.

Lemma advection_jacobians_are_rates_witness :
  let k := Examples.advection 1 true in
  let a := Examples.line 2 2 in
  HeatAdvectionConservative.computeQpResidual
    (advection_with k AUx (shift (advection_value k AUx) (_phi a 1) (Q2Qc 2))) a 0 0
  = HeatAdvectionConservative.computeQpResidual k a 0 0
    + Q2Qc 2 * HeatAdvectionConservative.computeQpOffDiagJacobian k a 0 1 0 13.
Proof.
  cbv zeta.
  apply (proj2 (Rates.advection_jacobians_are_rates
                  (Examples.advection 1 true) (Examples.line 2 2) 0 1 0 (Q2Qc 2))
               AUx).
  intros [] E; simpl in E; congruence.
Defined.

Lemma flux_velocity_jacobian_is_rate_witness :
  let k := Examples.flux_bc 1 13 14 15 in
  let a := Examples.line 2 2 in
  ThermalFluidFluxBC.computeQpResidual
    (flux_with_velocity k 0 (shift (flux_velocity k 0) (_phi a 1) (Q2Qc 2))) a 0 0
  = ThermalFluidFluxBC.computeQpResidual k a 0 0
    + Q2Qc 2 * ThermalFluidFluxBC.computeQpOffDiagJacobian k a 0 1 0
                 (ThermalFluidFluxBC.vel_var k 0).
Proof.
  cbv zeta.
  apply (Rates.flux_velocity_jacobian_is_rate
           (Examples.flux_bc 1 13 14 15) (Examples.line 2 2) 0 1 0 (Q2Qc 2) 0).
  - lia.
  - intros c' Hc'. lia.
  - split; intros _; qc_eval.
Defined.

Lemma flux_offdiag_omits_coefficients_witness :
  let k := Examples.flux_bc 1 13 14 15 in
  let a := Examples.line 2 2 in
  ThermalFluidFluxBC.computeQpOffDiagJacobian k a 0 1 0 10 = 0 ∧
  ThermalFluidFluxBC.computeQpResidual
    (flux_with k FDensity (shift (flux_value k FDensity) (_phi a 1) (Q2Qc 2))) a 0 0
  = ThermalFluidFluxBC.computeQpResidual k a 0 0
    + Q2Qc 2 * (_phi a 1 0
                * ThermalFluidFluxBC.computeQpResidual
                    (flux_with k FDensity (λ _, 1)) a 0 0).
Proof.
  cbv zeta.
  apply (proj1 (Rates.flux_offdiag_omits_coefficients
                  (Examples.flux_bc 1 13 14 15) (Examples.line 2 2) 0 1 0 (Q2Qc 2))
               FDensity).
  intros [|[|[|v]]] Hv; simpl; (lia || discriminate).
Defined.

Lemma convection_jacobians_are_rates_witness :
  let k := Examples.convection in
  let a := Examples.line 2 2 in
  HeatConvection.computeQpResidual
    (convection_with k VHs (shift (convection_value k VHs) (_phi a 1) (Q2Qc 2))) a 0 0
  = HeatConvection.computeQpResidual k a 0 0
    + Q2Qc 2 * HeatConvection.computeQpOffDiagJacobian k a 0 1 0 20.
Proof.
  cbv zeta.
  apply (proj2 (Rates.convection_jacobians_are_rates
                  Examples.convection (Examples.line 2 2) 0 1 0 (Q2Qc 2)) VHs).
  intros [] E; simpl in E; congruence.
Defined.

Lemma convection_exchange_balance_witness :
  HeatConvection.computeQpResidual Examples.convection MoreExamples.line_at_rest 0 0
  = 0.
Proof.
  apply (proj2 (proj2 (Rates.convection_exchange_balance
                         Examples.convection MoreExamples.line_at_rest 0 1 0))).
  reflexivity.
Defined.

Lemma conduction_jacobians_are_rates_witness :
  let k := Examples.conduction in
  let a := Examples.line 2 2 in
  HeatConduction.computeQpResidual
    (conduction_with k DConductivity
       (shift (conduction_value k DConductivity) (_phi a 1) (Q2Qc 2))) a 0 0
  = HeatConduction.computeQpResidual k a 0 0
    + Q2Qc 2 * HeatConduction.computeQpOffDiagJacobian k a 0 1 0 30.
Proof.
  cbv zeta.
  apply (proj2 (Rates.conduction_jacobians_are_rates
                  Examples.conduction (Examples.line 2 2) 0 1 0 (Q2Qc 2))
               DConductivity).
  intros [] E; simpl in E; congruence.
Defined.

Lemma conduction_jacobian_symmetric_nonnegative_witness :
  HeatConduction.computeQpJacobian Examples.conduction (Examples.line 2 2) 0 1 0
  = HeatConduction.computeQpJacobian Examples.conduction (Examples.line 2 2) 1 0 0 ∧
  0 ≤ HeatConduction.computeQpJacobian Examples.conduction (Examples.line 2 2) 0 0 0.
Proof.
  destruct (Rates.conduction_jacobian_symmetric_nonnegative
              Examples.conduction (Examples.line 2 2) 0 1 0) as [Hsym Hpos].
  - reflexivity.
  - split; [exact Hsym|]. apply Hpos; qc_eval.
Defined.

Lemma accumulation_offdiag_are_rates_witness :
  let k := MoreExamples.accumulation in
  let a := Examples.line 2 2 in
  HeatAccumulation.computeQpResidual MoreExamples.time_derivative
    (accumulation_with k CDensity
       (shift (accumulation_value k CDensity) (_phi a 1) (Q2Qc 2))) a 0 0
  = HeatAccumulation.computeQpResidual MoreExamples.time_derivative k a 0 0
    + Q2Qc 2 * HeatAccumulation.computeQpOffDiagJacobian k a 0 1 0 50.
Proof.
  cbv zeta.
  apply (Rates.accumulation_offdiag_are_rates MoreExamples.time_derivative
           MoreExamples.accumulation (Examples.line 2 2) 0 1 0 (Q2Qc 2) CDensity).
  - reflexivity.
  - intros [] E; simpl in E; congruence.
Defined.

Lemma offdiag_zero_for_uncoupled_source_or_storage_witness :
  HeatSource.computeQpOffDiagJacobian MoreExamples.source (Examples.line 2 2) 0 1 0 99
  = 0.
Proof.
  apply (proj1 Rates.offdiag_zero_for_uncoupled_source_or_storage).
  simpl. lia.
Defined.

End MoreRuns.

(** ** Concrete runs for the further properties of the pass *)
Module MoreUpwindRuns.
Import HeatAdvectionConservative Vary.


Lemma pure_inflow_contributes_nothing_witness :
  ∃ s', fullUpwind (Examples.advection (- 1) true) (Examples.line 1 1)
          CALCULATE_RESIDUAL Examples.fresh = Ok s' ∧
        _local_re s' !! 0%nat = Some 0 ∧ divisions s' = 1%nat.
Proof.
  destruct (UpwindLaws.pure_inflow_contributes_nothing
              (Examples.advection (- 1) true) (Examples.line 1 1) Examples.fresh)
    as (s' & Hrun & Hzero & Hdiv & _).
  - intros [|i] Hi; [qc_eval | simpl in Hi; lia].
  - exists s'. split; [done|]. split; [apply Hzero; simpl; lia | exact Hdiv].
Defined.

Lemma upwind_jacobian_is_rate_witness :
  ∃ sr sr' sj r kij,
    fullUpwind (Examples.advection 1 true) (Examples.line 2 2)
      CALCULATE_RESIDUAL Examples.fresh = Ok sr ∧
    fullUpwind (Examples.advection 1 true) (nudge_nodal (Examples.line 2 2) 0 (Q2Qc 2))
      CALCULATE_RESIDUAL Examples.fresh = Ok sr' ∧
    fullUpwind (Examples.advection 1 true) (Examples.line 2 2)
      CALCULATE_JACOBIAN Examples.fresh = Ok sj ∧
    _local_re sr !! 1%nat = Some r ∧
    mat_get (_local_ke sj) 1 0 = Ok kij ∧
    _local_re sr' !! 1%nat = Some (r + Q2Qc 2 * kij).
Proof.
  destruct (UpwindLaws.upwind_jacobian_is_rate
              (Examples.advection 1 true) (Examples.line 2 2) Examples.fresh
              0 (Q2Qc 2) eq_refl) as (sr & sr' & sj & H1 & H2 & H3 & Hrate).
  - simpl. lia.
  - destruct (Hrate 1%nat) as (r & kij & Hr & Hk & Hr'); [simpl; lia|].
    exists sr, sr', sj, r, kij.
    exact (conj H1 (conj H2 (conj H3 (conj Hr (conj Hk Hr'))))).
Defined.

Lemma scratch_is_rebuilt_witness :
  ∃ r1 r2,
    fullUpwind (Examples.advection 1 true) (Examples.line 2 2)
      CALCULATE_RESIDUAL Examples.fresh = Ok r1 ∧
    fullUpwind (Examples.advection 1 true) (Examples.line 2 2)
      CALCULATE_RESIDUAL (set_local_re [Q2Qc 7] Examples.fresh) = Ok r2 ∧
    _local_re r1 = _local_re r2.
Proof.
  destruct (UpwindLaws.scratch_is_rebuilt
              (Examples.advection 1 true) (Examples.line 2 2) Examples.fresh
              (set_local_re [Q2Qc 7] Examples.fresh))
    as (r1 & r2 & H1 & H2 & Hre & _).
  exists r1, r2. exact (conj H1 (conj H2 Hre)).
Defined.

Lemma save_in_receives_local_residual_witness :
  ∃ s', fullUpwind (Examples.advection 1 true) (Examples.line 2 2)
          CALCULATE_RESIDUAL Examples.fresh = Ok s' ∧
        default 0 (solution s' !! 1%nat)
        = 0 + sum_list [gather 1 [0; 1]%nat (_local_re s')].
Proof.
  destruct (UpwindLaws.save_in_receives_local_residual
              (Examples.advection 1 true) (Examples.line 2 2) Examples.fresh)
    as (s' & Hrun & _ & Hsave).
  exists s'. split; [done|]. by apply (Hsave eq_refl 1%nat).
Defined.

Lemma diag_save_in_receives_diagonal_witness :
  let sj := finished (Examples.advection 1 true) (Examples.line 2 2)
              CALCULATE_JACOBIAN Examples.fresh in
  ∃ diag, length diag = 2%nat ∧
    ∀ d, default 0 (solution sj !! d)
         = default 0 (solution Examples.fresh !! d)
           + sum_list ((λ dofs, gather d dofs diag) <$> [[0; 1]%nat]).
Proof.
  cbv zeta.
  destruct (UpwindLaws.diag_save_in_receives_diagonal
              (Examples.advection 1 true) (Examples.line 2 2) Examples.fresh _
              (Upwind.fullUpwind_jacobian (Examples.advection 1 true) (Examples.line 2 2)
                 Examples.fresh eq_refl))
    as [_ Hon].
  destruct (Hon eq_refl) as (diag & Hlen & _ & Hsol).
  exists diag. exact (conj Hlen Hsol).
Defined.

Lemma residual_signs_witness :
  ∃ s', fullUpwind (Examples.advection 1 true) (Examples.line 2 2)
          CALCULATE_RESIDUAL Examples.fresh = Ok s' ∧
        ∀ r, _local_re s' !! 1%nat = Some r →
             _upwind_node s' !! 1%nat = Some false → r ≤ 0.
Proof.
  destruct (UpwindLaws.residual_signs
              (Examples.advection 1 true) (Examples.line 2 2) Examples.fresh)
    as (s' & Hrun & Hsign).
  - intros [|[|i]] Hi _; [qc_eval | qc_eval | simpl in Hi; lia].
  - exists s'. split; [done|]. intros r Hr. by apply (Hsign 1%nat r Hr).
Defined.


Lemma reversed_velocity_swaps_classes_witness :
  ∃ s1 s2 b,
    fullUpwind (Examples.advection 1 true) (Examples.line 2 2)
      CALCULATE_RESIDUAL Examples.fresh = Ok s1 ∧
    fullUpwind (advection_reverse (Examples.advection 1 true)) (Examples.line 2 2)
      CALCULATE_RESIDUAL Examples.fresh = Ok s2 ∧
    _upwind_node s1 !! 0%nat = Some b ∧
    _upwind_node s2 !! 0%nat = Some (negb b).
Proof.
  destruct (UpwindLaws.reversed_velocity_swaps_classes
              (Examples.advection 1 true) (Examples.line 2 2) Examples.fresh 0)
    as (s1 & s2 & b & H1 & H2 & Hb & Hswap & _).
  - simpl. lia.
  - exists s1, s2, b. repeat split; try done. apply Hswap. qc_eval.
Defined.

End MoreUpwindRuns.
